(** * chip_i2c: a minimal I2C driver for an MCP23017 port expander

    Shallow embedding of [chip_i2c.c].  The driver's functions are written
    as programs over the kernel services they call (mutex, SMBus transport,
    allocation, sysfs); a sequential interpreter runs one call against a
    model of the machine, and an interleaving semantics runs several
    callers against the same client. *)

From Stdlib Require Import ZArith Lia Bool Ascii String List.
From Stdlib Require Import DecimalString.
From stdpp Require Import base option list gmap relations.

Local Open Scope string_scope.
Local Open Scope Z_scope.

(** ** Fixed-width integers *)

Module CInt.

(** Conversion to an unsigned type of [w] bits keeps the low [w] bits. *)
Definition to_unsigned (w : Z) (x : Z) : Z := Z.land x (Z.ones w).

(** Conversion to a signed type of [w] bits (two's complement). *)
Definition to_signed (w : Z) (x : Z) : Z :=
  let u := to_unsigned w x in
  if u <? 2 ^ (w - 1) then u else u - 2 ^ w.

Definition u8 : Z -> Z := to_unsigned 8.
Definition u16 : Z -> Z := to_unsigned 16.
Definition u64 : Z -> Z := to_unsigned 64.
Definition s32 : Z -> Z := to_signed 32.
Definition s64 : Z -> Z := to_signed 64.

Definition ULLONG_MAX : Z := 2 ^ 64 - 1.

(** [long] on the Raspberry Pi the driver is written for (32-bit ARM);
    [size_t] and [ssize_t] have its width. *)
Definition BITS_PER_LONG : Z := 32.
Definition size_t : Z -> Z := to_unsigned BITS_PER_LONG.
Definition ssize_t : Z -> Z := to_signed BITS_PER_LONG.
Definition SSIZE_MAX : Z := 2 ^ (BITS_PER_LONG - 1) - 1.

End CInt.
Import CInt.

(** ** Kernel constants used by the driver *)

(** Error numbers; a function that fails with [e] returns [Z.neg e]. *)
Definition errno := positive.
Definition EIO : errno := 5%positive.
Definition ENOMEM : errno := 12%positive.
Definition EEXIST : errno := 17%positive.
Definition ENODEV : errno := 19%positive.
Definition EINVAL : errno := 22%positive.
Definition ERANGE : errno := 34%positive.

Definition I2C_NAME_SIZE : nat := 20.
Definition I2C_FUNC_SMBUS_READ_BYTE_DATA : Z := 0x00080000.
Definition I2C_FUNC_SMBUS_WRITE_BYTE_DATA : Z := 0x00100000.
Definition I2C_FUNC_SMBUS_BYTE_DATA : Z :=
  Z.lor I2C_FUNC_SMBUS_READ_BYTE_DATA I2C_FUNC_SMBUS_WRITE_BYTE_DATA.

(** The MCP23017 registers the driver names. *)
Definition REG_CHIP_DIR_PORTA : Z := 0x00.
Definition REG_CHIP_DIR_PORTB : Z := 0x01.
Definition REG_CHIP_PORTA_LIN : Z := 0x12.
Definition REG_CHIP_PORTB_LIN : Z := 0x13.
Definition REG_CHIP_PORTA_LOUT : Z := 0x14.
Definition REG_CHIP_PORTB_LOUT : Z := 0x15.

(** Addresses the kernel scans ([I2C_CLIENT_END] terminates the C array). *)
Definition normal_i2c : list Z := [0x20; 0x21].

(** The name in [chip_i2c_id] and in [chip_driver.driver.name]. *)
Definition chip_i2c_name : string := "chip_i2c".

(** ** C strings *)

Module CString.

Definition NUL : ascii := Ascii.zero.
Definition LF : ascii := ascii_of_nat 10.

(** The characters a [const char *] denotes: everything before the
    first NUL. *)
Fixpoint cstr (s : string) : string :=
  match s with
  | EmptyString => EmptyString
  | String c r => if Ascii.eqb c NUL then EmptyString else String c (cstr r)
  end.

(** [strlcpy(dst, src, size)]: at most [size - 1] characters of [src]
    arrive in [dst] (left alone when [size] is 0). *)
Fixpoint take (n : nat) (s : string) : string :=
  match n, s with
  | S n', String c r => String c (take n' r)
  | _, _ => EmptyString
  end.

Definition strlcpy (dst src : string) (size : nat) : string :=
  match size with
  | O => dst
  | S n => take n (cstr src)
  end.

End CString.
Import CString.

(** ** kstrtoint (lib/kstrtox.c), base 10 *)

Module Kstrtox.

Definition digit_val (c : ascii) : option Z :=
  let n := Z.of_N (N_of_ascii c) in
  if (48 <=? n) && (n <=? 57) then Some (n - 48) else None.

(** [_parse_integer]: consume the leading base-10 digits of [s],
    accumulating in an unsigned 64-bit [res]; [rv] counts the digits and
    [overflow] records that the accumulator wrapped.  Returns the
    accumulator, the count, the flag and the unread rest. *)
Fixpoint _parse_integer (s : string) (res : Z) (rv : Z) (overflow : bool)
  : Z * Z * bool * string :=
  match s with
  | EmptyString => (res, rv, overflow, s)
  | String c r =>
      match digit_val c with
      | None => (res, rv, overflow, s)
      | Some val =>
          let overflow' :=
            if negb (Z.land res (u64 (Z.shiftl (Z.ones 64) 60)) =? 0)
            then (if res >? (ULLONG_MAX - val) / 10 then true else overflow)
            else overflow in
          _parse_integer r (u64 (res * 10 + val)) (rv + 1) overflow'
      end
  end.

(** [_kstrtoull]: digits, then at most one newline, then the end. *)
Definition _kstrtoull (s : string) : errno + Z :=
  let '(res, rv, overflow, rest) := _parse_integer s 0 0 false in
  if overflow then inl ERANGE
  else if rv =? 0 then inl EINVAL
  else
    let rest := match rest with
                | String c r => if Ascii.eqb c LF then r else rest
                | EmptyString => rest
                end in
    match rest with
    | EmptyString => inr res
    | String _ _ => inl EINVAL
    end.

(** The first character of a C string, NUL when the string is empty. *)
Definition first_char (s : string) : ascii :=
  match s with
  | String c _ => c
  | EmptyString => NUL
  end.

(** [s + 1] for a string whose first character is not NUL. *)
Definition skip_char (s : string) : string :=
  match s with
  | String _ r => r
  | EmptyString => EmptyString
  end.

Definition kstrtoull (s : string) : errno + Z :=
  if Ascii.eqb (first_char s) "+" then _kstrtoull (skip_char s)
  else _kstrtoull s.

Definition kstrtoll (s : string) : errno + Z :=
  if Ascii.eqb (first_char s) "-" then
    match _kstrtoull (skip_char s) with
    | inl rv => inl rv
    | inr tmp =>
        if s64 (- tmp) >? 0 then inl ERANGE else inr (s64 (- tmp))
    end
  else
    match kstrtoull s with
    | inl rv => inl rv
    | inr tmp => if s64 tmp <? 0 then inl ERANGE else inr (s64 tmp)
    end.

(** [kstrtoint(s, 10, &res)]: [inl e] is the return value [-e] with
    [*res] untouched, [inr v] is the return value 0 with [*res = v]. *)
Definition kstrtoint (buf : string) : errno + Z :=
  match kstrtoll (cstr buf) with
  | inl rv => inl rv
  | inr tmp => if tmp =? s32 tmp then inr tmp else inl ERANGE
  end.

End Kstrtox.
Import Kstrtox.

(** ** The integer a text denotes

    The reading of "parses as a signed decimal integer" that kstrtoint is
    compared with: an optional sign, one or more decimal digits, at most
    one trailing newline, and nothing else; the value is unbounded. *)

Module DecimalText.

Definition is_digit (c : ascii) : bool :=
  match digit_val c with
  | Some _ => true
  | None => false
  end.

Fixpoint skip_digits (s : string) : string :=
  match s with
  | EmptyString => s
  | String c r => if is_digit c then skip_digits r else s
  end.

Fixpoint digits_value (s : string) (acc : Z) : Z :=
  match s with
  | EmptyString => acc
  | String c r =>
      match digit_val c with
      | Some d => digits_value r (acc * 10 + d)
      | None => acc
      end
  end.

Definition starts_with_digit (s : string) : bool :=
  match s with
  | String c _ => is_digit c
  | EmptyString => false
  end.

Definition ends_line (s : string) : bool :=
  match s with
  | EmptyString => true
  | String c EmptyString => Ascii.eqb c LF
  | String _ (String _ _) => false
  end.

Definition unsigned_value (s : string) : option Z :=
  if starts_with_digit s && ends_line (skip_digits s)
  then Some (digits_value s 0)
  else None.

Definition decimal_value (s : string) : option Z :=
  match s with
  | String c r =>
      if Ascii.eqb c "-" then Z.opp <$> unsigned_value r
      else if Ascii.eqb c "+" then unsigned_value r
      else unsigned_value s
  | EmptyString => None
  end.

(** A minus sign in front of digits worth zero.  Kernels before 4.5
    answer -ERANGE to such a text where later ones yield 0; statements
    about accepted texts leave it out, so that they hold of both. *)
Definition negative_zero (s : string) : bool :=
  Ascii.eqb (first_char s) "-" &&
  match decimal_value s with
  | Some v => v =? 0
  | None => false
  end.

Definition INT_MIN : Z := - 2 ^ 31.
Definition INT_MAX : Z := 2 ^ 31 - 1.

Definition fits_int (v : Z) : bool := (INT_MIN <=? v) && (v <=? INT_MAX).

End DecimalText.
Import DecimalText.

(** ** sprintf with the format "%d\n" *)

Module Vsprintf.

Definition digit_char (d : Z) : ascii := ascii_of_N (Z.to_N (48 + d)).

(** Digits of a non-negative number, least significant first, as the
    kernel's [number] produces them before reversing. *)
Fixpoint put_dec (fuel : nat) (n : Z) (acc : string) : string :=
  match fuel with
  | O => acc
  | S fuel' =>
      let acc' := String (digit_char (n mod 10)) acc in
      if n / 10 =? 0 then acc' else put_dec fuel' (n / 10) acc'
  end.

(** "%d" for an [int]: a minus sign for negative values, then the
    magnitude (an [int] has at most 10 decimal digits). *)
Definition fmt_d (v : Z) : string :=
  if v <? 0 then String "-" (put_dec 10 (- v) EmptyString)
  else put_dec 10 v EmptyString.

Definition sprintf_d_nl (v : Z) : string :=
  String.append (fmt_d v) (String LF EmptyString).

(** The decimal numeral of an integer as the standard library writes
    it: the reference for what "%d" should print. *)
Definition canonical_decimal (v : Z) : string :=
  NilZero.string_of_int (Z.to_int v).

End Vsprintf.
Import Vsprintf.


(** ** The machine the driver runs on *)

(** The two sysfs attributes, [DEVICE_ATTR(chip_led, ...)] and
    [DEVICE_ATTR(chip_switch, ...)]. *)
Inductive attr := dev_attr_chip_led | dev_attr_chip_switch.

#[global] Instance attr_eq_dec : EqDecision attr.
Proof. solve_decision. Defined.

(** [struct chip_data]; the mutex is held or free. *)
Record chip_data := mk_chip_data {
  update_lock : bool;
  led_last_updated : Z;
  switch_last_read : Z;
  kind : Z
}.

(** What [devm_kzalloc] hands out: zero-filled memory. *)
Definition zeroed_chip_data : chip_data :=
  {| update_lock := false; led_last_updated := 0; switch_last_read := 0;
     kind := 0 |}.

(** One SMBus transaction, as the adapter sees it. *)
Inductive xfer :=
| ReadByte (command : Z)
| WriteByte (command value : Z).

#[global] Instance xfer_eq_dec : EqDecision xfer.
Proof. solve_decision. Defined.

Record world := mk_world {
  chip_regs : gmap Z Z;              (* registers of the MCP23017 *)
  bus_log : list xfer;               (* transactions so far, oldest first *)
  bus_fault : nat -> option positive; (* errno of the n-th transaction, if it fails *)
  clientdata : option chip_data;     (* i2c_get_clientdata(client), None = NULL *)
  sysfs : list attr;                 (* attribute files of the device *)
  jiffies : Z;                       (* the kernel's tick counter *)
  kzalloc_ok : bool;                 (* whether the next allocation succeeds *)
  chip_react : xfer -> bool -> gmap Z Z -> gmap Z Z;
                                     (* the chip's registers after a transaction
                                        that completed (true) or failed (false) *)
  chip_answer : Z -> gmap Z Z -> Z;  (* data the chip puts on the bus for a read *)
  sysfs_fault : attr -> option errno (* errno of device_create_file, if it fails *)
}.

Definition with_clientdata (d : option chip_data) (w : world) : world :=
  mk_world (chip_regs w) (bus_log w) (bus_fault w) d (sysfs w) (jiffies w)
           (kzalloc_ok w) (chip_react w) (chip_answer w) (sysfs_fault w).

Definition with_sysfs (fs : list attr) (w : world) : world :=
  mk_world (chip_regs w) (bus_log w) (bus_fault w) (clientdata w) fs
           (jiffies w) (kzalloc_ok w) (chip_react w) (chip_answer w)
           (sysfs_fault w).

Definition with_bus (regs : gmap Z Z) (log : list xfer) (w : world) : world :=
  mk_world regs log (bus_fault w) (clientdata w) (sysfs w) (jiffies w)
           (kzalloc_ok w) (chip_react w) (chip_answer w) (sysfs_fault w).

Definition set_lock (b : bool) (d : chip_data) : chip_data :=
  mk_chip_data b (led_last_updated d) (switch_last_read d) (kind d).

Definition set_kind (k : Z) (d : chip_data) : chip_data :=
  mk_chip_data (update_lock d) (led_last_updated d) (switch_last_read d) k.

Definition lock_held (w : world) : bool :=
  match clientdata w with
  | Some d => update_lock d
  | None => false
  end.

(** The transport: one addressed byte transaction.  It is appended to the
    log whether it succeeds or not.  A failing one returns the negative
    errno; a completed write returns 0; a completed read returns the byte
    the chip answered.  What the transaction does to the chip's registers,
    and what the chip answers, is the chip's business: the driver's source
    does not say, so both are taken from the machine ([chip_react],
    [chip_answer]) and no property of the driver relies on them. *)
Definition smbus_xfer (x : xfer) (w : world) : Z * world :=
  let log := (bus_log w ++ [x])%list in
  match bus_fault w (length (bus_log w)) with
  | Some e => (Z.neg e, with_bus (chip_react w x false (chip_regs w)) log w)
  | None =>
      let regs := chip_react w x true (chip_regs w) in
      match x with
      | ReadByte c => (u8 (chip_answer w c (chip_regs w)), with_bus regs log w)
      | WriteByte c v => (0, with_bus regs log w)
      end
  end.

(** ** Programs over kernel services *)

Inductive service :=
| mutex_init
| mutex_lock
| mutex_unlock
| i2c_smbus_read_byte_data (command : Z)
| i2c_smbus_write_byte_data (command value : Z)
| devm_kzalloc
| i2c_set_clientdata
| store_kind (k : Z)
| device_create_file (a : attr)
| device_remove_file (a : attr).

Inductive prog (A : Type) : Type :=
| Ret (a : A)
| Call (e : service) (k : Z -> prog A).

Arguments Ret {A} a.
Arguments Call {A} e k.

Fixpoint bind {A B} (p : prog A) (f : A -> prog B) : prog B :=
  match p with
  | Ret a => f a
  | Call e k => Call e (fun r => bind (k r) f)
  end.

Definition call (e : service) : prog Z := Call e Ret.

Notation "x <- p ;; q" := (bind p (fun x => q))
  (at level 100, p at next level, right associativity).
Notation "p ;; q" := (bind p (fun _ => q))
  (at level 100, right associativity).

(** What each service does to the machine; [None] when the caller cannot
    proceed: the mutex is taken, or the client data pointer is NULL. *)
Definition handle (e : service) (w : world) : option (Z * world) :=
  match e with
  | mutex_init =>
      d ← clientdata w; Some (0, with_clientdata (Some (set_lock false d)) w)
  | mutex_lock =>
      d ← clientdata w;
      if update_lock d then None
      else Some (0, with_clientdata (Some (set_lock true d)) w)
  | mutex_unlock =>
      d ← clientdata w; Some (0, with_clientdata (Some (set_lock false d)) w)
  | i2c_smbus_read_byte_data command =>
      Some (smbus_xfer (ReadByte (u8 command)) w)
  | i2c_smbus_write_byte_data command value =>
      Some (smbus_xfer (WriteByte (u8 command) (u8 value)) w)
  | devm_kzalloc => Some (if kzalloc_ok w then 1 else 0, w)
  | i2c_set_clientdata => Some (0, with_clientdata (Some zeroed_chip_data) w)
  | store_kind k =>
      d ← clientdata w; Some (0, with_clientdata (Some (set_kind k d)) w)
  | device_create_file a =>
      match sysfs_fault w a with
      | Some e => Some (Z.neg e, w)
      | None =>
          if decide (a ∈ sysfs w) then Some (Z.neg EEXIST, w)
          else Some (0, with_sysfs (a :: sysfs w) w)
      end
  | device_remove_file a =>
      Some (0, with_sysfs (filter (λ b, b ≠ a) (sysfs w)) w)
  end.

(** One caller running alone. *)
Fixpoint run {A} (p : prog A) (w : world) : option (A * world) :=
  match p with
  | Ret a => Some (a, w)
  | Call e k =>
      match handle e w with
      | Some (r, w') => run (k r) w'
      | None => None
      end
  end.

(** ** The driver

    The functions of [chip_i2c.c], statement by statement.  Parameters
    of type [u8] and [u16] are converted where the C call converts them.
    [dev_info], [dev_dbg] and [printk] only write to the kernel log and
    are left out. *)

Definition chip_read_value (reg : Z) : prog Z :=
  call mutex_lock ;;
  val <- call (i2c_smbus_read_byte_data (u8 reg)) ;;
  call mutex_unlock ;;
  Ret val.

Definition chip_write_value (reg value : Z) : prog Z :=
  call mutex_lock ;;
  ret <- call (i2c_smbus_write_byte_data (u8 reg) (u16 value)) ;;
  call mutex_unlock ;;
  Ret ret.

(** [count] arrives as a [size_t] and leaves as the [ssize_t] result;
    [err] is a negative [int], which the conversion to [ssize_t] keeps. *)
Definition set_chip_led (buf : string) (count : Z) : prog Z :=
  match kstrtoint buf with
  | inl err => Ret (Z.neg err)
  | inr value =>
      chip_write_value REG_CHIP_PORTA_LOUT (u16 value) ;;
      Ret (ssize_t (size_t count))
  end.

(** Returns what [sprintf] returns together with the text left in [buf]. *)
Definition get_chip_switch : prog (Z * string) :=
  value <- chip_read_value REG_CHIP_PORTB_LIN ;;
  let text := sprintf_d_nl value in
  Ret (Z.of_nat (String.length text), text).

Definition chip_init_client : prog unit :=
  chip_write_value REG_CHIP_DIR_PORTA 0x00 ;;
  chip_write_value REG_CHIP_DIR_PORTB 0xFF ;;
  Ret tt.

Definition chip_i2c_probe (driver_data : Z) : prog Z :=
  data <- call devm_kzalloc ;;
  if data =? 0 then Ret (Z.neg ENOMEM)
  else
    call i2c_set_clientdata ;;
    call mutex_init ;;
    call (store_kind (s32 driver_data)) ;;
    chip_init_client ;;
    call (device_create_file dev_attr_chip_led) ;;
    call (device_create_file dev_attr_chip_switch) ;;
    Ret 0.

Definition chip_i2c_remove : prog Z :=
  call (device_remove_file dev_attr_chip_led) ;;
  call (device_remove_file dev_attr_chip_switch) ;;
  Ret 0.

(** [i2c_check_functionality(adap, func)]. *)
Definition i2c_check_functionality (functionality func : Z) : bool :=
  Z.land func functionality =? func.

(** Detection reads the adapter's functionality mask and the candidate
    address; it returns the status and the contents of [info->type]. *)
Definition chip_i2c_detect (functionality : Z) (addr : Z) (info_type : string)
  : Z * string :=
  let address := addr in
  if negb (i2c_check_functionality functionality I2C_FUNC_SMBUS_BYTE_DATA)
  then (Z.neg ENODEV, info_type)
  else if address =? 0x21
  then (0, strlcpy info_type chip_i2c_name I2C_NAME_SIZE)
  else (Z.neg ENODEV, info_type).

(** ** Several callers on one client *)

Module Concurrent.

Definition is_transport (e : service) : bool :=
  match e with
  | i2c_smbus_read_byte_data _ | i2c_smbus_write_byte_data _ _ => true
  | _ => false
  end.

(** A caller is either between two services or inside a transport
    call, which takes time: entering and leaving it are two steps. *)
Inductive thread (A : Type) : Type :=
| Running (p : prog A)
| InFlight (e : service) (k : Z -> prog A).

Arguments Running {A} p.
Arguments InFlight {A} e k.

Inductive thread_step {A} : world -> thread A -> world -> thread A -> Prop :=
| step_enter w e k :
    is_transport e = true ->
    thread_step w (Running (Call e k)) w (InFlight e k)
| step_leave w e k r w' :
    handle e w = Some (r, w') ->
    thread_step w (InFlight e k) w' (Running (k r))
| step_service w e k r w' :
    is_transport e = false ->
    handle e w = Some (r, w') ->
    thread_step w (Running (Call e k)) w' (Running (k r)).

(** Any caller that can move may move next; one blocked in
    [mutex_lock] cannot. *)
Inductive step {A} : world * list (thread A) -> world * list (thread A) -> Prop :=
| step_at i t t' w w' (pool : list (thread A)) :
    pool !! i = Some t ->
    thread_step w t w' t' ->
    step (w, pool) (w', <[i := t']> pool).

Definition in_flight {A} (t : thread A) : bool :=
  match t with
  | InFlight _ _ => true
  | Running _ => false
  end.

Definition transactions_in_flight {A} (pool : list (thread A)) : nat :=
  length (List.filter in_flight pool).

(** What a caller may ask of the bound client: the two attribute files,
    or the two exported register functions directly. *)
Inductive request :=
| StoreLed (buf : string) (count : Z)   (* write(2) on chip_led *)
| ShowSwitch                               (* read(2) on chip_switch *)
| ReadReg (reg : Z)                  (* chip_read_value(client, reg) *)
| WriteReg (reg value : Z).          (* chip_write_value(client, reg, value) *)

Definition serve (r : request) : prog unit :=
  match r with
  | StoreLed buf count => set_chip_led buf count ;; Ret tt
  | ShowSwitch => get_chip_switch ;; Ret tt
  | ReadReg reg => chip_read_value reg ;; Ret tt
  | WriteReg reg value => chip_write_value reg value ;; Ret tt
  end.

Fixpoint serve_all (rs : list request) : prog unit :=
  match rs with
  | [] => Ret tt
  | r :: rs' => serve r ;; serve_all rs'
  end.

Definition spawn (rss : list (list request)) : list (thread unit) :=
  map (fun rs => Running (serve_all rs)) rss.

(** Locking discipline of a program: where it stands with respect to
    the mutex, and that from there on every transport call is bracketed
    by [mutex_lock] and [mutex_unlock], one call per bracket. *)
Inductive phase := Outside | Holding | Releasing.

Fixpoint disciplined {A} (ph : phase) (p : prog A) : Prop :=
  match p with
  | Ret _ => ph = Outside
  | Call e k =>
      match e with
      | mutex_lock => ph = Outside /\ forall r, disciplined Holding (k r)
      | i2c_smbus_read_byte_data _ | i2c_smbus_write_byte_data _ _ =>
          ph = Holding /\ forall r, disciplined Releasing (k r)
      | mutex_unlock => ph = Releasing /\ forall r, disciplined Outside (k r)
      | _ => False
      end
  end.

Definition thread_ok {A} (owns : bool) (t : thread A) : Prop :=
  match t with
  | Running p =>
      if owns then disciplined Holding p \/ disciplined Releasing p
      else disciplined Outside p
  | InFlight e k =>
      owns = true /\ is_transport e = true /\
      forall r, disciplined Releasing (k r)
  end.

Definition pool_inv {A} (w : world) (pool : list (thread A)) : Prop :=
  exists owner : option nat,
    (is_Some owner -> lock_held w = true) /\
    forall i t, pool !! i = Some t ->
                thread_ok (bool_decide (owner = Some i)) t.

End Concurrent.

(** ** Sessions: requests served one after another, or side by side *)

Module Sessions.
Import Concurrent.

(** The client is bound and nobody holds its mutex. *)
Definition idle (w : world) : Prop :=
  exists d, clientdata w = Some d /\ update_lock d = false.

(** The transaction a request leads to: none for a store whose text
    kstrtoint rejects, one for everything else. *)
Definition transaction_of (r : request) : option xfer :=
  match r with
  | StoreLed buf _ =>
      match kstrtoint buf with
      | inl _ => None
      | inr value => Some (WriteByte REG_CHIP_PORTA_LOUT (u8 value))
      end
  | ShowSwitch => Some (ReadByte REG_CHIP_PORTB_LIN)
  | ReadReg reg => Some (ReadByte (u8 reg))
  | WriteReg reg value => Some (WriteByte (u8 reg) (u8 value))
  end.

(** Requests that come through the two attribute files. *)
Definition attribute_request (r : request) : bool :=
  match r with
  | StoreLed _ _ | ShowSwitch => true
  | ReadReg _ | WriteReg _ _ => false
  end.

(** The two transactions the attribute files stand for: a read of the
    input port, a write of a byte to the output latch. *)
Definition port_access (x : xfer) : Prop :=
  x = ReadByte 0x13 \/ exists v, 0 <= v < 256 /\ x = WriteByte 0x14 v.

(** A caller that has returned. *)
Definition finished {A} (t : thread A) : bool :=
  match t with
  | Running (Ret _) => true
  | _ => false
  end.

(** The mutex is held exactly when one caller, present in the pool, is
    between its [mutex_lock] and its [mutex_unlock]. *)
Definition pool_live {A} (w : world) (pool : list (thread A)) : Prop :=
  is_Some (clientdata w) /\
  exists owner : option nat,
    (lock_held w = true <-> is_Some owner) /\
    (forall i, owner = Some i -> is_Some (pool !! i)) /\
    forall i t, pool !! i = Some t ->
                thread_ok (bool_decide (owner = Some i)) t.

(** What a program will ask of the kernel, in order, along the run in
    which every service answers 0. *)
Fixpoint script {A} (p : prog A) : list service :=
  match p with
  | Ret _ => []
  | Call e k => e :: script (k 0)
  end.

Fixpoint result0 {A} (p : prog A) : A :=
  match p with
  | Ret a => a
  | Call e k => result0 (k 0)
  end.

(** Programs whose script does not depend on what the services answer. *)
Fixpoint uniform {A} (p : prog A) : Prop :=
  match p with
  | Ret _ => True
  | Call e k => forall r, script (k r) = script (k 0) /\ uniform (k r)
  end.

Definition thread_uniform {A} (t : thread A) : Prop :=
  match t with
  | Running p => uniform p
  | InFlight e k =>
      is_transport e = true /\
      forall r, script (k r) = script (k 0) /\ uniform (k r)
  end.

(** The transaction behind a transport service. *)
Definition xfer_of_service (e : service) : option xfer :=
  match e with
  | i2c_smbus_read_byte_data command => Some (ReadByte (u8 command))
  | i2c_smbus_write_byte_data command value =>
      Some (WriteByte (u8 command) (u8 value))
  | _ => None
  end.

(** Transactions a caller has yet to complete; the one it is inside
    counts, since it reaches the log when the call returns. *)
Definition pending {A} (t : thread A) : list xfer :=
  match t with
  | Running p => omap xfer_of_service (script p)
  | InFlight e k => omap xfer_of_service (e :: script (k 0))
  end.

(** Steps a caller has yet to take: two for a transport call (enter,
    leave), one for any other service. *)
Definition service_steps (e : service) : nat :=
  if is_transport e then 2%nat else 1%nat.

Definition steps_left {A} (t : thread A) : nat :=
  match t with
  | Running p => sum_list_with service_steps (script p)
  | InFlight e k => S (sum_list_with service_steps (script (k 0)))
  end.

End Sessions.

(** ** Claims of the specification that the code does not meet, as stated *)

(** A failing direction-register write makes the bind fail and leaves no
    attribute file behind. *)
Definition init_failure_aborts_bind (w : world) (driver_data : Z) : Prop :=
  forall n e,
    (n = length (bus_log w) \/ n = S (length (bus_log w))) ->
    bus_fault w n = Some e ->
    exists e' w',
      run (chip_i2c_probe driver_data) w = Some (Z.neg e', w') /\
      (dev_attr_chip_led ∉ sysfs w') /\ (dev_attr_chip_switch ∉ sysfs w').


(** A successful store stamps [led_last_updated], a successful show
    stamps [switch_last_read], with the time of the call. *)
Definition timestamps_updated (w : world) (buf : string) (count : Z) : Prop :=
  bus_fault w (length (bus_log w)) = None ->
  (forall r w' d', run (set_chip_led buf count) w = Some (r, w') ->
                   0 <= r -> clientdata w' = Some d' ->
                   led_last_updated d' = jiffies w) /\
  (forall r w' d', run get_chip_switch w = Some (r, w') ->
                   clientdata w' = Some d' ->
                   switch_last_read d' = jiffies w).

(** Every text that denotes an integer gets the low byte of that integer
    written to the output latch, in one transaction. *)
Definition every_integer_text_is_written
  (w : world) (buf : string) (count : Z) : Prop :=
  forall v,
    decimal_value (cstr buf) = Some v ->
    exists r w',
      run (set_chip_led buf count) w = Some (r, w') /\
      bus_log w' = (bus_log w ++ [WriteByte 0x14 (v mod 2 ^ 8)])%list.

(** ** Worlds used in the examples *)

Definition no_fault : nat -> option errno := fun _ => None.

(** Transaction number [n] (counting from 0 along the log) fails with
    EIO, every other one succeeds. *)
Definition fault_at (n : nat) : nat -> option errno :=
  fun k => if Nat.eqb k n then Some EIO else None.

Definition switches_at_7 : gmap Z Z := <[REG_CHIP_PORTB_LIN := 7]> ∅.

(** The chip of the examples: a plain register file, which stores what a
    completed write carries and answers a read with what it holds. *)
Definition register_file (x : xfer) (completed : bool) (regs : gmap Z Z)
  : gmap Z Z :=
  match completed, x with
  | true, WriteByte c v => <[c := v]> regs
  | _, _ => regs
  end.

Definition register_byte (c : Z) (regs : gmap Z Z) : Z := default 0 (regs !! c).

Definition no_sysfs_fault : attr -> option errno := fun _ => None.

(** A chip whose switches read 7, fresh from power-up, nothing bound. *)
Definition unbound_world (fault : nat -> option errno) : world :=
  {| chip_regs := switches_at_7;
     bus_log := [];
     bus_fault := fault;
     clientdata := None;
     sysfs := [];
     jiffies := 1000;
     kzalloc_ok := true;
     chip_react := register_file;
     chip_answer := register_byte;
     sysfs_fault := no_sysfs_fault |}.

(** The same chip on a machine that is out of memory. *)
Definition starved_world (fault : nat -> option errno) : world :=
  {| chip_regs := switches_at_7;
     bus_log := [];
     bus_fault := fault;
     clientdata := None;
     sysfs := [];
     jiffies := 1000;
     kzalloc_ok := false;
     chip_react := register_file;
     chip_answer := register_byte;
     sysfs_fault := no_sysfs_fault |}.

(** The same chip with the driver bound and idle. *)
Definition bound_world (fault : nat -> option errno) : world :=
  {| chip_regs := <[REG_CHIP_DIR_PORTB := 0xFF]> (<[REG_CHIP_DIR_PORTA := 0x00]> switches_at_7);
     bus_log := [];
     bus_fault := fault;
     clientdata := Some zeroed_chip_data;
     sysfs := [dev_attr_chip_switch; dev_attr_chip_led];
     jiffies := 1000;
     kzalloc_ok := true;
     chip_react := register_file;
     chip_answer := register_byte;
     sysfs_fault := no_sysfs_fault |}.

(** * Properties *)

(** ** Integer conversions *)

Lemma u8_mod (x : Z) : u8 x = x mod 2 ^ 8.
Proof. unfold u8, to_unsigned. apply Z.land_ones. lia. Qed.

Lemma u8_u16 (x : Z) : u8 (u16 x) = u8 x.
Proof.
  unfold u8, u16, to_unsigned.
  rewrite <- Z.land_assoc. reflexivity.
Qed.

Lemma u8_idem (x : Z) : u8 (u8 x) = u8 x.
Proof.
  unfold u8, to_unsigned.
  rewrite <- Z.land_assoc. reflexivity.
Qed.

Lemma u8_range (x : Z) : 0 <= u8 x < 256.
Proof. rewrite u8_mod. apply Z.mod_pos_bound. lia. Qed.

(** A byte count that fits [ssize_t] comes back as it went in. *)
Lemma ssize_t_size_t (count : Z) :
  0 <= count <= SSIZE_MAX -> ssize_t (size_t count) = count.
Proof.
  unfold ssize_t, size_t, to_signed, to_unsigned, SSIZE_MAX, BITS_PER_LONG.
  intros H. rewrite <- Z.land_assoc, Z.land_diag, Z.land_ones by lia.
  rewrite Z.mod_small by lia.
  destruct (Z.ltb_spec count (2 ^ (32 - 1))); lia.
Qed.

(** ** kstrtoint against the decimal reading *)

Lemma digit_val_range (c : ascii) (d : Z) :
  digit_val c = Some d -> 0 <= d <= 9.
Proof.
  unfold digit_val. intros H.
  destruct (48 <=? Z.of_N (N_of_ascii c)) eqn:E1; [| discriminate H].
  destruct (Z.of_N (N_of_ascii c) <=? 57) eqn:E2; [| discriminate H].
  simpl in H. injection H as <-. lia.
Qed.

Lemma digits_value_mono (s : string) (acc : Z) :
  0 <= acc -> acc <= digits_value s acc.
Proof.
  revert acc. induction s as [| c r IH]; intros acc Hacc; simpl; [lia |].
  destruct (digit_val c) as [d |] eqn:Hd; [| lia].
  apply digit_val_range in Hd.
  specialize (IH (acc * 10 + d)). lia.
Qed.

Lemma high_bits_clear (res : Z) :
  0 <= res <= ULLONG_MAX ->
  Z.land res (u64 (Z.shiftl (Z.ones 64) 60)) = 0 -> res < 2 ^ 60.
Proof.
  intros Hres Hland.
  change (u64 (Z.shiftl (Z.ones 64) 60)) with (Z.shiftl (Z.ones 4) 60) in Hland.
  apply (f_equal (fun x => Z.shiftr x 60)) in Hland.
  rewrite Z.shiftr_land, Z.shiftr_shiftl_l, Z.sub_diag, Z.shiftl_0_r in Hland by lia.
  rewrite Z.land_ones, Z.shiftr_div_pow2 in Hland by lia.
  change (Z.shiftr 0 60) with 0 in Hland. unfold ULLONG_MAX in Hres.
  assert (Hq : res / 2 ^ 60 < 2 ^ 4).
  { apply Z.div_lt_upper_bound; lia. }
  rewrite Z.mod_small in Hland by (split; [apply Z.div_pos; lia | exact Hq]).
  apply Z.div_small_iff in Hland; lia.
Qed.

Lemma parse_integer_rest (s : string) (res rv : Z) (ovf : bool) :
  (_parse_integer s res rv ovf).2 = skip_digits s.
Proof.
  revert res rv ovf. induction s as [| c r IH]; intros res rv ovf; simpl;
    [reflexivity |].
  unfold is_digit. destruct (digit_val c); [apply IH | reflexivity].
Qed.

Lemma parse_integer_count (s : string) (res rv : Z) (ovf : bool) :
  let rv' := (_parse_integer s res rv ovf).1.1.2 in
  rv <= rv' /\ (starts_with_digit s = true -> rv < rv') /\
  (starts_with_digit s = false -> rv' = rv).
Proof.
  revert res rv ovf. induction s as [| c r IH]; intros res rv ovf; simpl.
  - repeat split; [lia | discriminate].
  - unfold is_digit. destruct (digit_val c) as [d |]; simpl.
    + match goal with |- context [_parse_integer r ?a ?b ?o] =>
        destruct (IH a b o) as (Hle & _) end.
      repeat split; [lia | lia | discriminate].
    + repeat split; [lia | discriminate].
Qed.

Lemma parse_integer_value (s : string) (acc rv : Z) (ovf : bool) :
  0 <= acc <= ULLONG_MAX ->
  let r := _parse_integer s acc rv ovf in
  r.1.2 = ovf || (ULLONG_MAX <? digits_value s acc) /\
  (r.1.2 = false -> r.1.1.1 = digits_value s acc).
Proof.
  revert acc rv ovf. induction s as [| c r IH]; intros acc rv ovf Hacc; simpl.
  - replace (ULLONG_MAX <? acc) with false by (symmetry; apply Z.ltb_ge; lia).
    rewrite orb_false_r. auto.
  - destruct (digit_val c) as [d |] eqn:Hd; simpl.
    2:{ replace (ULLONG_MAX <? acc) with false by (symmetry; apply Z.ltb_ge; lia).
        rewrite orb_false_r. auto. }
    pose proof (digit_val_range c d Hd) as Hdr.
    assert (Hu64 : 0 <= u64 (acc * 10 + d) <= ULLONG_MAX).
    { unfold u64, to_unsigned, ULLONG_MAX. rewrite Z.land_ones by lia.
      pose proof (Z.mod_pos_bound (acc * 10 + d) (2 ^ 64)). lia. }
    destruct (Z_le_gt_dec (acc * 10 + d) ULLONG_MAX) as [Hfit | Hover].
    + (* the accumulator does not wrap *)
      assert (Hsame : u64 (acc * 10 + d) = acc * 10 + d).
      { unfold u64, to_unsigned. rewrite Z.land_ones by lia.
        apply Z.mod_small. unfold ULLONG_MAX in *. lia. }
      assert (Hflag : (if negb (Z.land acc (u64 (Z.shiftl (Z.ones 64) 60)) =? 0)
                       then if acc >? (ULLONG_MAX - d) / 10 then true else ovf
                       else ovf) = ovf).
      { destruct (negb _); [| reflexivity].
        destruct (Z.gtb_spec acc ((ULLONG_MAX - d) / 10)) as [Hgt | _];
          [| reflexivity].
        exfalso.
        pose proof (Z.mul_div_le (ULLONG_MAX - d) 10 ltac:(lia)).
        pose proof (Z.mod_pos_bound (ULLONG_MAX - d) 10 ltac:(lia)).
        pose proof (Z.div_mod (ULLONG_MAX - d) 10 ltac:(lia)). lia. }
      rewrite Hflag, Hsame. apply IH. lia.
    + (* it wraps: the flag is raised and stays *)
      assert (Hflag : (if negb (Z.land acc (u64 (Z.shiftl (Z.ones 64) 60)) =? 0)
                       then if acc >? (ULLONG_MAX - d) / 10 then true else ovf
                       else ovf) = true).
      { destruct (Z.eqb_spec (Z.land acc (u64 (Z.shiftl (Z.ones 64) 60))) 0)
          as [Hz | _]; simpl.
        - apply high_bits_clear in Hz; [| exact Hacc].
          unfold ULLONG_MAX in *. lia.
        - destruct (Z.gtb_spec acc ((ULLONG_MAX - d) / 10)) as [_ | Hle];
            [reflexivity |].
          exfalso.
          pose proof (Z.mul_div_le (ULLONG_MAX - d) 10 ltac:(lia)). lia. }
      rewrite Hflag.
      destruct (IH (u64 (acc * 10 + d)) (rv + 1) true Hu64) as [Htrue _].
      simpl in Htrue. rewrite Htrue.
      pose proof (digits_value_mono r (acc * 10 + d) ltac:(lia)).
      replace (ULLONG_MAX <? digits_value r (acc * 10 + d)) with true
        by (symmetry; apply Z.ltb_lt; lia).
      rewrite orb_true_r. split; [reflexivity | discriminate].
Qed.


Lemma _kstrtoull_decimal (s : string) :
  match unsigned_value s with
  | Some n => _kstrtoull s = if n <=? ULLONG_MAX then inr n else inl ERANGE
  | None => exists e, _kstrtoull s = inl e
  end.
Proof.
  unfold _kstrtoull, unsigned_value.
  pose proof (parse_integer_rest s 0 0 false) as Hrest.
  pose proof (parse_integer_count s 0 0 false) as (_ & Hsome & Hnone).
  pose proof (parse_integer_value s 0 0 false ltac:(unfold ULLONG_MAX; lia))
    as (Hflag & Hval).
  destruct (_parse_integer s 0 0 false) as [[[res rv] ovf] rest].
  simpl in *. subst rest.
  destruct (starts_with_digit s); simpl.
  - specialize (Hsome eq_refl).
    replace (rv =? 0) with false by (symmetry; apply Z.eqb_neq; lia).
    destruct (ends_line (skip_digits s)) eqn:Hend.
    + destruct (Z.ltb_spec ULLONG_MAX (digits_value s 0)) as [Hbig | Hfit];
        simpl in Hflag; subst ovf.
      * replace (digits_value s 0 <=? ULLONG_MAX) with false
          by (symmetry; apply Z.leb_gt; lia).
        reflexivity.
      * replace (digits_value s 0 <=? ULLONG_MAX) with true
          by (symmetry; apply Z.leb_le; lia).
        rewrite (Hval eq_refl).
        destruct (skip_digits s) as [| c [| c' r']]; simpl in Hend;
          [reflexivity | rewrite Hend; reflexivity | discriminate Hend].
    + destruct ovf; [eauto |].
      destruct (skip_digits s) as [| c [| c' r']]; simpl in Hend;
        [discriminate Hend | rewrite Hend; eauto |].
      destruct (Ascii.eqb c LF); eauto.
  - destruct ovf; [eauto |]. rewrite (Hnone eq_refl). simpl. eauto.
Qed.

Lemma s64_of_unsigned (tmp : Z) :
  0 <= tmp <= ULLONG_MAX ->
  s64 tmp = if tmp <? 2 ^ 63 then tmp else tmp - 2 ^ 64.
Proof.
  intros H. unfold s64, to_signed, to_unsigned, ULLONG_MAX in *.
  rewrite Z.land_ones by lia.
  rewrite Z.mod_small by lia. reflexivity.
Qed.

Lemma s64_of_negated (tmp : Z) :
  0 <= tmp <= ULLONG_MAX ->
  s64 (- tmp) = if tmp <=? 2 ^ 63 then - tmp else 2 ^ 64 - tmp.
Proof.
  intros H. unfold s64, to_signed, to_unsigned, ULLONG_MAX in *.
  rewrite Z.land_ones by lia.
  destruct (Z.eq_dec tmp 0) as [-> | Hnz]; [reflexivity |].
  assert (Hm : (- tmp) mod 2 ^ 64 = 2 ^ 64 - tmp).
  { symmetry. apply (Z.mod_unique _ _ (-1)); lia. }
  rewrite Hm.
  destruct (Z.leb_spec tmp (2 ^ 63)); destruct (Z.ltb_spec (2 ^ 64 - tmp) (2 ^ (64 - 1)));
    simpl in *; lia.
Qed.

Lemma s32_fixed (v : Z) :
  - 2 ^ 63 <= v < 2 ^ 63 -> (v =? s32 v) = fits_int v.
Proof.
  intros H. unfold s32, to_signed, to_unsigned, fits_int, INT_MIN, INT_MAX.
  rewrite Z.land_ones by lia.
  pose proof (Z.mod_pos_bound v (2 ^ 32) ltac:(lia)) as Hm.
  change (2 ^ (32 - 1)) with (2 ^ 31).
  destruct (Z.ltb_spec (v mod 2 ^ 32) (2 ^ 31)) as [Hlo | Hhi].
  - destruct (Z.eqb_spec v (v mod 2 ^ 32)) as [Heq | Hne].
    + symmetry. apply andb_true_iff. split; [apply Z.leb_le | apply Z.leb_le]; lia.
    + symmetry. apply andb_false_iff.
      destruct (Z.leb_spec (- 2 ^ 31) v); [| auto]. right. apply Z.leb_gt.
      destruct (Z_lt_le_dec v (2 ^ 31)) as [Hlt | Hge]; [| lia].
      exfalso. apply Hne.
      destruct (Z_lt_le_dec v 0) as [Hneg | Hpos].
      * assert (v mod 2 ^ 32 = v + 2 ^ 32)
          by (symmetry; apply (Z.mod_unique _ _ (-1)); lia). lia.
      * symmetry. apply Z.mod_small. lia.
  - destruct (Z.eqb_spec v (v mod 2 ^ 32 - 2 ^ 32)) as [Heq | Hne].
    + symmetry. apply andb_true_iff. split; [apply Z.leb_le | apply Z.leb_le]; lia.
    + symmetry. apply andb_false_iff.
      destruct (Z.leb_spec (- 2 ^ 31) v); [| auto]. right. apply Z.leb_gt.
      destruct (Z_lt_le_dec v (2 ^ 31)) as [Hlt | Hge]; [| lia].
      exfalso.
      destruct (Z_lt_le_dec v 0) as [Hneg | Hpos].
      * apply Hne.
        assert (v mod 2 ^ 32 = v + 2 ^ 32)
          by (symmetry; apply (Z.mod_unique _ _ (-1)); lia). lia.
      * rewrite Z.mod_small in Hhi by lia. lia.
Qed.

Lemma unsigned_value_nonneg (s : string) (n : Z) :
  unsigned_value s = Some n -> 0 <= n.
Proof.
  unfold unsigned_value. destruct (_ && _); [| discriminate].
  intros [= <-]. apply digits_value_mono. lia.
Qed.

(** kstrtoint accepts exactly the texts that denote an integer in the
    range of [int], and then yields that integer. *)
Lemma kstrtoint_decimal (buf : string) :
  match decimal_value (cstr buf) with
  | Some v => kstrtoint buf = if fits_int v then inr v else inl ERANGE
  | None => exists e, kstrtoint buf = inl e
  end.
Proof.
  unfold kstrtoint, kstrtoll, kstrtoull, decimal_value.
  destruct (cstr buf) as [| c r]; simpl.
  { eauto. }
  destruct (Ascii.eqb c "-") eqn:Hminus.
  - pose proof (_kstrtoull_decimal r) as Hu.
    destruct (unsigned_value r) as [n |] eqn:Hn; simpl.
    + pose proof (unsigned_value_nonneg r n Hn) as Hpos. rewrite Hu.
      destruct (Z.leb_spec n ULLONG_MAX) as [Hfit | Hbig].
      * rewrite s64_of_negated by lia.
        destruct (Z.leb_spec n (2 ^ 63)) as [Hin | Hout].
        -- destruct (Z.gtb_spec (- n) 0) as [Hgt | _]; [lia |].
           rewrite s32_fixed by lia. destruct (fits_int (- n)); reflexivity.
        -- destruct (Z.gtb_spec (2 ^ 64 - n) 0) as [_ | Hle];
             [| unfold ULLONG_MAX in *; lia].
           replace (fits_int (- n)) with false; [reflexivity |].
           symmetry. apply andb_false_iff. left. apply Z.leb_gt.
           unfold INT_MIN. lia.
      * replace (fits_int (- n)) with false; [reflexivity |].
        symmetry. apply andb_false_iff. left. apply Z.leb_gt.
        unfold INT_MIN, ULLONG_MAX in *. lia.
    + destruct Hu as [e ->]. eauto.
  - assert (Hcase : match (if Ascii.eqb c "+" then unsigned_value r
                           else unsigned_value (String c r)) with
                    | Some n => (if Ascii.eqb c "+" then _kstrtoull r
                                 else _kstrtoull (String c r))
                                = (if n <=? ULLONG_MAX then inr n else inl ERANGE)
                                /\ 0 <= n
                    | None => exists e, (if Ascii.eqb c "+" then _kstrtoull r
                                         else _kstrtoull (String c r)) = inl e
                    end).
    { destruct (Ascii.eqb c "+").
      - pose proof (_kstrtoull_decimal r) as Hu.
        destruct (unsigned_value r) eqn:Hn; [| exact Hu].
        split; [exact Hu | eapply unsigned_value_nonneg; eauto].
      - pose proof (_kstrtoull_decimal (String c r)) as Hu.
        destruct (unsigned_value (String c r)) eqn:Hn; [| exact Hu].
        split; [exact Hu | eapply unsigned_value_nonneg; eauto]. }
    destruct (if Ascii.eqb c "+" then unsigned_value r
              else unsigned_value (String c r)) as [n |].
    + destruct Hcase as [-> Hpos].
      destruct (Z.leb_spec n ULLONG_MAX) as [Hfit | Hbig].
      * rewrite s64_of_unsigned by lia.
        destruct (Z.ltb_spec n (2 ^ 63)) as [Hin | Hout].
        -- replace (n <? 0) with false by (symmetry; apply Z.ltb_ge; lia).
           rewrite s32_fixed by lia. destruct (fits_int n); reflexivity.
        -- replace (n - 2 ^ 64 <? 0) with true
             by (symmetry; apply Z.ltb_lt; unfold ULLONG_MAX in *; lia).
           replace (fits_int n) with false; [reflexivity |].
           symmetry. apply andb_false_iff. right. apply Z.leb_gt.
           unfold INT_MAX. lia.
      * replace (fits_int n) with false; [reflexivity |].
        symmetry. apply andb_false_iff. right. apply Z.leb_gt.
        unfold INT_MAX, ULLONG_MAX in *. lia.
    + destruct Hcase as [e ->]. eauto.
Qed.

Lemma kstrtoint_accepts (buf : string) (v : Z) :
  kstrtoint buf = inr v <->
  decimal_value (cstr buf) = Some v /\ fits_int v = true.
Proof.
  pose proof (kstrtoint_decimal buf) as H.
  destruct (decimal_value (cstr buf)) as [v' |].
  - rewrite H. destruct (fits_int v') eqn:Hfit; split.
    + intros [= <-]. auto.
    + intros [[= <-] _]. reflexivity.
    + discriminate.
    + intros [[= <-] Hv]. congruence.
  - destruct H as [e ->]. split; [discriminate | intros [[=] _]].
Qed.

(** ** The sequential interpreter *)

Lemma run_bind {A B} (p : prog A) (f : A -> prog B) (w : world) :
  run (bind p f) w =
  match run p w with
  | Some (a, w') => run (f a) w'
  | None => None
  end.
Proof.
  revert w. induction p as [a | e k IH]; intros w; simpl.
  - reflexivity.
  - destruct (handle e w) as [[r w'] |]; [apply IH | reflexivity].
Qed.

Lemma run_call {B} (e : service) (f : Z -> prog B) (w : world) :
  run (bind (call e) f) w =
  match handle e w with
  | Some (r, w') => run (f r) w'
  | None => None
  end.
Proof. reflexivity. Qed.

Lemma with_clientdata_same (w : world) :
  with_clientdata (clientdata w) w = w.
Proof. destruct w; reflexivity. Qed.

Lemma set_lock_release (d : chip_data) :
  update_lock d = false -> set_lock false (set_lock true d) = d.
Proof. destruct d; simpl; intros ->; reflexivity. Qed.

(** A transaction touches the chip and the log, nothing else. *)
Lemma smbus_xfer_frame (x : xfer) (w : world) :
  let w' := (smbus_xfer x w).2 in
  clientdata w' = clientdata w /\ sysfs w' = sysfs w /\
  jiffies w' = jiffies w /\ kzalloc_ok w' = kzalloc_ok w /\
  bus_fault w' = bus_fault w /\ bus_log w' = (bus_log w ++ [x])%list.
Proof.
  unfold smbus_xfer.
  destruct (bus_fault w (length (bus_log w))); [| destruct x]; simpl; auto 10.
Qed.

Lemma locked_transaction (x : xfer) (w : world) (d : chip_data) :
  clientdata w = Some d -> update_lock d = false ->
  let w1 := with_clientdata (Some (set_lock true d)) w in
  let w2 := (smbus_xfer x w1).2 in
  with_clientdata (Some (set_lock false (set_lock true d))) w2
  = (smbus_xfer x w).2.
Proof.
  intros Hd Hfree. simpl. rewrite set_lock_release by exact Hfree.
  unfold smbus_xfer, with_clientdata, with_bus; simpl.
  destruct w as [regs log fault cd fs j ok]; simpl in *. subst cd.
  destruct (fault (length log)); [| destruct x]; reflexivity.
Qed.

Lemma locked_transaction_result (x : xfer) (w : world) (d : option chip_data) :
  (smbus_xfer x (with_clientdata d w)).1 = (smbus_xfer x w).1.
Proof.
  unfold smbus_xfer, with_clientdata; simpl.
  destruct (bus_fault w (length (bus_log w))); [| destruct x]; reflexivity.
Qed.

(** With the mutex free, a register write is its one transaction. *)
Lemma run_chip_write_value (reg value : Z) (w : world) (d : chip_data) :
  clientdata w = Some d -> update_lock d = false ->
  run (chip_write_value reg value) w
  = Some (smbus_xfer (WriteByte (u8 reg) (u8 value)) w).
Proof.
  intros Hd Hfree. unfold chip_write_value. simpl.
  rewrite Hd; simpl. rewrite Hfree.
  rewrite u8_idem, u8_u16.
  set (x := WriteByte (u8 reg) (u8 value)).
  destruct (smbus_xfer x (with_clientdata (Some (set_lock true d)) w))
    as [r w2] eqn:E.
  pose proof (smbus_xfer_frame x (with_clientdata (Some (set_lock true d)) w))
    as (Hcd & _). rewrite E in Hcd; simpl in Hcd.
  rewrite Hcd; simpl.
  pose proof (locked_transaction x w d Hd Hfree) as Hw. simpl in Hw.
  rewrite E in Hw; simpl in Hw. rewrite Hw.
  pose proof (locked_transaction_result x w (Some (set_lock true d))) as Hr.
  rewrite E in Hr; simpl in Hr. rewrite Hr.
  destruct (smbus_xfer x w); reflexivity.
Qed.

(** With the mutex free, a register read is its one transaction. *)
Lemma run_chip_read_value (reg : Z) (w : world) (d : chip_data) :
  clientdata w = Some d -> update_lock d = false ->
  run (chip_read_value reg) w = Some (smbus_xfer (ReadByte (u8 reg)) w).
Proof.
  intros Hd Hfree. unfold chip_read_value. simpl.
  rewrite Hd; simpl. rewrite Hfree.
  rewrite u8_idem.
  set (x := ReadByte (u8 reg)).
  destruct (smbus_xfer x (with_clientdata (Some (set_lock true d)) w))
    as [r w2] eqn:E.
  pose proof (smbus_xfer_frame x (with_clientdata (Some (set_lock true d)) w))
    as (Hcd & _). rewrite E in Hcd; simpl in Hcd.
  rewrite Hcd; simpl.
  pose proof (locked_transaction x w d Hd Hfree) as Hw. simpl in Hw.
  rewrite E in Hw; simpl in Hw. rewrite Hw.
  pose proof (locked_transaction_result x w (Some (set_lock true d))) as Hr.
  rewrite E in Hr; simpl in Hr. rewrite Hr.
  destruct (smbus_xfer x w); reflexivity.
Qed.

Lemma smbus_xfer_log (x : xfer) (w : world) :
  bus_log (smbus_xfer x w).2 = (bus_log w ++ [x])%list.
Proof. apply smbus_xfer_frame. Qed.

Lemma smbus_xfer_clientdata (x : xfer) (w : world) :
  clientdata (smbus_xfer x w).2 = clientdata w.
Proof. apply smbus_xfer_frame. Qed.

Lemma smbus_xfer_sysfs (x : xfer) (w : world) :
  sysfs (smbus_xfer x w).2 = sysfs w.
Proof. apply smbus_xfer_frame. Qed.

(** The initialization sequence with the mutex free: two writes, the
    second issued whatever the first returned. *)
Lemma run_chip_init_client (w : world) (d : chip_data) :
  clientdata w = Some d -> update_lock d = false ->
  run chip_init_client w
  = Some (tt, (smbus_xfer (WriteByte 0x01 0xFF)
                 (smbus_xfer (WriteByte 0x00 0x00) w).2).2).
Proof.
  intros Hd Hfree. unfold chip_init_client.
  rewrite run_bind, (run_chip_write_value _ _ w d Hd Hfree).
  destruct (smbus_xfer _ w) as [r1 w1] eqn:E1.
  assert (Hd1 : clientdata w1 = Some d).
  { pose proof (smbus_xfer_clientdata (WriteByte (u8 REG_CHIP_DIR_PORTA) (u8 0)) w) as H.
    rewrite E1 in H. simpl in H. congruence. }
  rewrite run_bind, (run_chip_write_value _ _ w1 d Hd1 Hfree).
  change (u8 REG_CHIP_DIR_PORTB) with 1. change (u8 255) with 255.
  cbn [snd]. destruct (smbus_xfer (WriteByte 1 255) w1); reflexivity.
Qed.

Lemma smbus_xfer_sysfs_fault (x : xfer) (w : world) :
  sysfs_fault (smbus_xfer x w).2 = sysfs_fault w.
Proof.
  unfold smbus_xfer.
  destruct (bus_fault w (length (bus_log w))); [| destruct x]; reflexivity.
Qed.

Lemma run_device_create_file (a : attr) (w : world) :
  exists r w', run (call (device_create_file a)) w = Some (r, w') /\
               (sysfs_fault w a = None -> a ∈ sysfs w') /\
               (forall b, b ∈ sysfs w -> b ∈ sysfs w') /\
               bus_log w' = bus_log w /\ chip_regs w' = chip_regs w /\
               clientdata w' = clientdata w /\
               sysfs_fault w' = sysfs_fault w.
Proof.
  simpl. destruct (sysfs_fault w a) as [e |] eqn:Hfault; simpl.
  { exists (Z.neg e), w. split; [reflexivity |]. split; [discriminate | auto 10]. }
  destruct (decide (a ∈ sysfs w)) as [Hin | Hout]; simpl.
  - exists (Z.neg EEXIST), w. auto 10.
  - exists 0, (with_sysfs (a :: sysfs w) w). simpl.
    split; [reflexivity |]. split; [intros _; apply list_elem_of_here |].
    split; [| auto 10]. intros b Hb. apply list_elem_of_further, Hb.
Qed.

(** Bind, with memory available: always status 0, always both direction
    writes, and each attribute file unless creating it failed. *)
Lemma run_chip_i2c_probe (driver_data : Z) (w : world) :
  kzalloc_ok w = true ->
  exists w',
    run (chip_i2c_probe driver_data) w = Some (0, w') /\
    bus_log w' = (bus_log w ++ [WriteByte 0x00 0x00; WriteByte 0x01 0xFF])%list /\
    (sysfs_fault w dev_attr_chip_led = None -> dev_attr_chip_led ∈ sysfs w') /\
    (sysfs_fault w dev_attr_chip_switch = None ->
     dev_attr_chip_switch ∈ sysfs w') /\
    clientdata w' = Some (mk_chip_data false 0 0 (s32 driver_data)).
Proof.
  intros Hok. unfold chip_i2c_probe.
  rewrite run_call. cbn [handle]. rewrite Hok.
  change (1 =? 0) with false. cbv iota.
  rewrite run_call. cbn [handle].
  rewrite run_call. cbn [handle with_clientdata clientdata mbind option_bind].
  rewrite run_call. cbn [handle with_clientdata clientdata mbind option_bind].
  set (d := set_kind (s32 driver_data) (set_lock false zeroed_chip_data)).
  set (w0 := with_clientdata (Some d) _).
  assert (Hd : clientdata w0 = Some d) by reflexivity.
  rewrite run_bind, (run_chip_init_client w0 d Hd eq_refl).
  set (w2 := (smbus_xfer (WriteByte 1 255) _).2).
  assert (Hsf2 : sysfs_fault w2 = sysfs_fault w).
  { unfold w2. rewrite !smbus_xfer_sysfs_fault. reflexivity. }
  rewrite run_bind.
  destruct (run_device_create_file dev_attr_chip_led w2)
    as (r3 & w3 & -> & Hled & Hkeep3 & Hlog3 & _ & Hcd3 & Hsf3).
  rewrite run_bind.
  destruct (run_device_create_file dev_attr_chip_switch w3)
    as (r4 & w4 & -> & Hsw & Hkeep4 & Hlog4 & _ & Hcd4 & _).
  exists w4. simpl. split; [reflexivity |].
  split.
  { rewrite Hlog4, Hlog3. unfold w2. rewrite !smbus_xfer_log.
    rewrite <- app_assoc. reflexivity. }
  split; [intros Hnone; apply Hkeep4, Hled; rewrite Hsf2; exact Hnone |].
  split; [intros Hnone; apply Hsw; rewrite Hsf3, Hsf2; exact Hnone |].
  rewrite Hcd4, Hcd3. unfold w2. rewrite !smbus_xfer_clientdata. reflexivity.
Qed.

(** ** Detection *)

(** C4. Detection answers -ENODEV, leaving [info->type] alone, for every
    address other than 0x21 and for every adapter without SMBus byte-data
    transfers; for 0x21 on a capable adapter it answers 0 and names the
    driver "chip_i2c". *)
Theorem detect_only_0x21_on_capable_bus (functionality addr : Z) (info_type : string) :
  (addr <> 0x21 ->
   chip_i2c_detect functionality addr info_type = (Z.neg ENODEV, info_type)) /\
  (Z.land I2C_FUNC_SMBUS_BYTE_DATA functionality <> I2C_FUNC_SMBUS_BYTE_DATA ->
   chip_i2c_detect functionality addr info_type = (Z.neg ENODEV, info_type)) /\
  (Z.land I2C_FUNC_SMBUS_BYTE_DATA functionality = I2C_FUNC_SMBUS_BYTE_DATA ->
   chip_i2c_detect functionality 0x21 info_type = (0, "chip_i2c"%string)).
Proof.
  unfold chip_i2c_detect, i2c_check_functionality.
  repeat split.
  - intros Hne. destruct (_ =? I2C_FUNC_SMBUS_BYTE_DATA); simpl; [| reflexivity].
    destruct (Z.eqb_spec addr 33); [contradiction | reflexivity].
  - intros Hcap. destruct (Z.eqb_spec (Z.land I2C_FUNC_SMBUS_BYTE_DATA functionality)
                                      I2C_FUNC_SMBUS_BYTE_DATA);
      [contradiction | reflexivity].
  - intros Hcap. rewrite Hcap, Z.eqb_refl. reflexivity.
Qed.

Lemma detect_only_0x21_on_capable_bus_witness :
  chip_i2c_detect I2C_FUNC_SMBUS_BYTE_DATA 0x20 "" = (Z.neg ENODEV, ""%string) /\
  chip_i2c_detect I2C_FUNC_SMBUS_READ_BYTE_DATA 0x21 "" = (Z.neg ENODEV, ""%string) /\
  chip_i2c_detect 0x0EFF0009 0x21 "" = (0, "chip_i2c"%string).
Proof.
  split; [| split].
  - apply (proj1 (detect_only_0x21_on_capable_bus I2C_FUNC_SMBUS_BYTE_DATA 0x20 "")).
    lia.
  - apply (proj1 (proj2 (detect_only_0x21_on_capable_bus
                           I2C_FUNC_SMBUS_READ_BYTE_DATA 0x21 ""))).
    vm_compute. discriminate.
  - apply (proj2 (proj2 (detect_only_0x21_on_capable_bus 0x0EFF0009 0x21 ""))).
    reflexivity.
Defined.

(** ** The initialization sequence *)

(** C3. The initialization sequence issues exactly two transactions, the
    write of 0x00 to register 0x00 and then the write of 0xFF to register
    0x01, both when run on its own with the mutex free and when run by
    bind. *)
Theorem init_writes_both_directions_in_order
  (w : world) (d : chip_data) (driver_data : Z) :
  (clientdata w = Some d -> update_lock d = false ->
   exists w', run chip_init_client w = Some (tt, w') /\
              bus_log w' = (bus_log w ++ [WriteByte 0x00 0x00; WriteByte 0x01 0xFF])%list) /\
  (kzalloc_ok w = true ->
   exists w', run (chip_i2c_probe driver_data) w = Some (0, w') /\
              bus_log w' = (bus_log w ++ [WriteByte 0x00 0x00; WriteByte 0x01 0xFF])%list).
Proof.
  split.
  - intros Hd Hfree. eexists. split; [apply (run_chip_init_client w d Hd Hfree) |].
    rewrite !smbus_xfer_log, <- app_assoc. reflexivity.
  - intros Hok. destruct (run_chip_i2c_probe driver_data w Hok) as (w' & Hrun & Hlog & _).
    exists w'. auto.
Qed.

Lemma init_writes_both_directions_in_order_witness :
  (exists w', run chip_init_client (bound_world (fault_at 0)) = Some (tt, w') /\
              bus_log w' = [WriteByte 0x00 0x00; WriteByte 0x01 0xFF]) /\
  (exists w', run (chip_i2c_probe 0) (unbound_world no_fault) = Some (0, w') /\
              bus_log w' = [WriteByte 0x00 0x00; WriteByte 0x01 0xFF]).
Proof.
  split.
  - apply (proj1 (init_writes_both_directions_in_order
                    (bound_world (fault_at 0)) zeroed_chip_data 0)); reflexivity.
  - apply (proj2 (init_writes_both_directions_in_order
                    (unbound_world no_fault) zeroed_chip_data 0)); reflexivity.
Defined.

(** ** The chip_led attribute *)

(** C7. A text that denotes no decimal integer (optional sign, digits,
    at most one trailing newline) is rejected by kstrtoint; and whenever
    kstrtoint rejects the text, the store returns kstrtoint's negative
    error and the machine is exactly as before: no transaction is logged
    and no register changes. *)
Theorem set_output_rejects_malformed_text (w : world) (buf : string) (count : Z) :
  (decimal_value (cstr buf) = None -> exists e, kstrtoint buf = inl e) /\
  (forall e, kstrtoint buf = inl e ->
             run (set_chip_led buf count) w = Some (Z.neg e, w) /\ Z.neg e < 0).
Proof.
  split.
  - intros Hnone. pose proof (kstrtoint_decimal buf) as H.
    rewrite Hnone in H. exact H.
  - intros e Hparse. unfold set_chip_led. rewrite Hparse. simpl.
    split; [reflexivity | lia].
Qed.

Lemma set_output_rejects_malformed_text_witness :
  decimal_value (cstr "not-a-number") = None /\
  kstrtoint "not-a-number" = inl EINVAL /\
  run (set_chip_led "not-a-number" 12) (bound_world no_fault)
  = Some (Z.neg EINVAL, bound_world no_fault) /\ Z.neg EINVAL < 0.
Proof.
  split; [reflexivity |]. split; [reflexivity |].
  apply (proj2 (set_output_rejects_malformed_text (bound_world no_fault)
                  "not-a-number" 12) EINVAL).
  reflexivity.
Defined.

(** C8, as stated, fails: "4294967338" denotes an integer (2^32 + 42),
    yet the store writes nothing: kstrtoint answers -ERANGE for a value
    outside the range of [int], and the store returns that. *)
Lemma out_of_range_integer_is_not_written :
  ~ every_integer_text_is_written (bound_world no_fault) "4294967338" 10.
Proof.
  intros H.
  destruct (H 4294967338 eq_refl) as (r & w' & Hrun & Hlog).
  injection Hrun as _ <-. discriminate Hlog.
Qed.

(** C8, amended. When the text denotes an integer v within the range of
    [int] (a negative zero aside), the mutex is free and [count] fits
    [ssize_t], the store returns [count] after exactly one transaction:
    the write of v mod 2^8 to register 0x14. *)
Theorem set_output_writes_low_byte
  (w : world) (d : chip_data) (buf : string) (count v : Z) :
  clientdata w = Some d -> update_lock d = false ->
  decimal_value (cstr buf) = Some v -> fits_int v = true ->
  negative_zero (cstr buf) = false ->
  0 <= count <= SSIZE_MAX ->
  exists w', run (set_chip_led buf count) w = Some (count, w') /\
             w' = (smbus_xfer (WriteByte 0x14 (v mod 2 ^ 8)) w).2 /\
             bus_log w' = (bus_log w ++ [WriteByte 0x14 (v mod 2 ^ 8)])%list.
Proof.
  intros Hd Hfree Hv Hfit _ Hcount.
  assert (Hparse : kstrtoint buf = inr v) by (apply kstrtoint_accepts; auto).
  unfold set_chip_led. rewrite Hparse.
  rewrite run_bind, (run_chip_write_value _ _ w d Hd Hfree).
  rewrite u8_u16, <- u8_mod, (ssize_t_size_t count Hcount).
  change (u8 REG_CHIP_PORTA_LOUT) with 0x14.
  destruct (smbus_xfer (WriteByte 0x14 (u8 v)) w) as [r w'] eqn:E.
  exists w'. simpl. split; [reflexivity |]. split; [reflexivity |].
  pose proof (smbus_xfer_log (WriteByte 0x14 (u8 v)) w) as Hlog.
  rewrite E in Hlog. exact Hlog.
Qed.

Lemma set_output_writes_low_byte_witness :
  clientdata (bound_world no_fault) = Some zeroed_chip_data /\
  update_lock zeroed_chip_data = false /\
  (decimal_value (cstr "42") = Some 42 /\ fits_int 42 = true /\
   negative_zero (cstr "42") = false /\ 0 <= 2 <= SSIZE_MAX /\
   exists w', run (set_chip_led "42" 2) (bound_world no_fault) = Some (2, w') /\
              w' = (smbus_xfer (WriteByte 0x14 42) (bound_world no_fault)).2 /\
              bus_log w' = [WriteByte 0x14 42]) /\
  (decimal_value (cstr "-257") = Some (-257) /\ fits_int (-257) = true /\
   negative_zero (cstr "-257") = false /\ 0 <= 4 <= SSIZE_MAX /\
   exists w', run (set_chip_led "-257" 4) (bound_world no_fault) = Some (4, w') /\
              w' = (smbus_xfer (WriteByte 0x14 255) (bound_world no_fault)).2 /\
              bus_log w' = [WriteByte 0x14 255]).
Proof.
  split; [reflexivity |]. split; [reflexivity |]. split.
  - split; [reflexivity |]. split; [reflexivity |]. split; [reflexivity |].
    split; [unfold SSIZE_MAX, BITS_PER_LONG; lia |].
    apply (set_output_writes_low_byte (bound_world no_fault) zeroed_chip_data
             "42" 2 42); try reflexivity.
    unfold SSIZE_MAX, BITS_PER_LONG; lia.
  - split; [reflexivity |]. split; [reflexivity |]. split; [reflexivity |].
    split; [unfold SSIZE_MAX, BITS_PER_LONG; lia |].
    apply (set_output_writes_low_byte (bound_world no_fault) zeroed_chip_data
             "-257" 4 (-257)); try reflexivity.
    unfold SSIZE_MAX, BITS_PER_LONG; lia.
Defined.

(** ** The chip_switch attribute *)

(** "%d" prints a byte the way the standard library writes the numeral. *)
Lemma fmt_d_canonical_byte (v : Z) :
  0 <= v < 256 -> fmt_d v = canonical_decimal v.
Proof.
  intros Hv.
  assert (H : forallb (fun n => String.eqb (fmt_d (Z.of_nat n))
                                           (canonical_decimal (Z.of_nat n)))
                      (seq 0 256) = true) by (vm_compute; reflexivity).
  rewrite forallb_forall in H. specialize (H (Z.to_nat v)).
  rewrite Z2Nat.id in H by lia.
  apply String.eqb_eq, H, in_seq. lia.
Qed.

(** A transaction returns a negative errno or, for a read, a byte. *)
Lemma smbus_read_result (c : Z) (w : world) :
  let r := (smbus_xfer (ReadByte c) w).1 in
  match bus_fault w (length (bus_log w)) with
  | Some e => r = Z.neg e
  | None => r = u8 (chip_answer w c (chip_regs w))
  end.
Proof.
  unfold smbus_xfer. destruct (bus_fault w (length (bus_log w))); reflexivity.
Qed.

Lemma smbus_write_result (c v : Z) (w : world) :
  let r := (smbus_xfer (WriteByte c v) w).1 in
  match bus_fault w (length (bus_log w)) with
  | Some e => r = Z.neg e
  | None => r = 0
  end.
Proof.
  unfold smbus_xfer. destruct (bus_fault w (length (bus_log w))); reflexivity.
Qed.

Lemma run_get_chip_switch (w : world) (d : chip_data) :
  clientdata w = Some d -> update_lock d = false ->
  let x := smbus_xfer (ReadByte 0x13) w in
  run get_chip_switch w
  = Some ((Z.of_nat (String.length (sprintf_d_nl x.1)), sprintf_d_nl x.1), x.2).
Proof.
  intros Hd Hfree. unfold get_chip_switch.
  rewrite run_bind, (run_chip_read_value _ w d Hd Hfree).
  change (u8 REG_CHIP_PORTB_LIN) with 0x13.
  destruct (smbus_xfer (ReadByte 0x13) w); reflexivity.
Qed.

(** C9. With the mutex free, a show whose one transaction, the read of
    register 0x13, succeeds with value v leaves in the buffer the
    canonical decimal numeral of v followed by one newline, and returns
    the length of that text. *)
Theorem get_input_renders_decimal_line (w : world) (d : chip_data) (v : Z) :
  clientdata w = Some d -> update_lock d = false ->
  (smbus_xfer (ReadByte 0x13) w).1 = v -> 0 <= v ->
  exists w',
    let text := String.append (canonical_decimal v) (String LF EmptyString) in
    run get_chip_switch w = Some ((Z.of_nat (String.length text), text), w') /\
    bus_log w' = (bus_log w ++ [ReadByte 0x13])%list.
Proof.
  intros Hd Hfree Hv Hpos.
  exists (smbus_xfer (ReadByte 0x13) w).2. cbv zeta.
  rewrite (run_get_chip_switch w d Hd Hfree). cbv zeta. rewrite Hv.
  assert (Hbyte : 0 <= v < 256).
  { pose proof (smbus_read_result 0x13 w) as Hr. cbv zeta in Hr. rewrite Hv in Hr.
    destruct (bus_fault w (length (bus_log w))); [lia |].
    rewrite Hr. apply u8_range. }
  unfold sprintf_d_nl. rewrite (fmt_d_canonical_byte v Hbyte).
  split; [reflexivity | apply smbus_xfer_log].
Qed.

Lemma get_input_renders_decimal_line_witness :
  clientdata (bound_world no_fault) = Some zeroed_chip_data /\
  update_lock zeroed_chip_data = false /\
  (smbus_xfer (ReadByte 0x13) (bound_world no_fault)).1 = 7 /\
  0 <= 7 /\
  exists w',
    run get_chip_switch (bound_world no_fault)
    = Some ((2, String "7" (String LF EmptyString)), w') /\
    bus_log w' = [ReadByte 0x13].
Proof.
  split; [reflexivity |]. split; [reflexivity |]. split; [reflexivity |].
  split; [lia |].
  apply (get_input_renders_decimal_line (bound_world no_fault) zeroed_chip_data 7);
    [reflexivity | reflexivity | reflexivity | lia].
Defined.

(** ** Unbind *)

(** C10. Unbind returns 0 having removed the two attribute files and
    nothing else: no transaction is logged, every chip register keeps its
    value, and the client data is as it was. *)
Theorem unbind_touches_no_hardware (w : world) :
  exists w',
    run chip_i2c_remove w = Some (0, w') /\
    bus_log w' = bus_log w /\
    chip_regs w' = chip_regs w /\
    clientdata w' = clientdata w /\
    sysfs w' = filter (fun a => a ≠ dev_attr_chip_switch)
                 (filter (fun a => a ≠ dev_attr_chip_led) (sysfs w)) /\
    (dev_attr_chip_led ∉ sysfs w') /\ (dev_attr_chip_switch ∉ sysfs w').
Proof.
  eexists. split; [reflexivity |]. simpl.
  repeat (split; [reflexivity |]).
  split.
  - rewrite !list_elem_of_filter. tauto.
  - rewrite list_elem_of_filter. tauto.
Qed.

(** ** Transport failures *)

Lemma run_set_chip_led (w : world) (d : chip_data) (buf : string) (count v : Z) :
  clientdata w = Some d -> update_lock d = false ->
  kstrtoint buf = inr v ->
  run (set_chip_led buf count) w
  = Some (ssize_t (size_t count), (smbus_xfer (WriteByte 0x14 (u8 v)) w).2).
Proof.
  intros Hd Hfree Hparse. unfold set_chip_led. rewrite Hparse.
  rewrite run_bind, (run_chip_write_value _ _ w d Hd Hfree), u8_u16.
  change (u8 REG_CHIP_PORTA_LOUT) with 0x14.
  destruct (smbus_xfer (WriteByte 0x14 (u8 v)) w); reflexivity.
Qed.

(** C2, as stated, fails: with the first direction write failing with
    EIO, bind still returns 0. *)
Lemma bind_survives_init_failure :
  ~ init_failure_aborts_bind (unbound_world (fault_at 0)) 0.
Proof.
  intros H.
  destruct (H 0%nat EIO (or_introl eq_refl) eq_refl) as (e' & w' & Hrun & _).
  destruct (run_chip_i2c_probe 0 (unbound_world (fault_at 0)) eq_refl)
    as (w'' & Hrun' & _).
  rewrite Hrun' in Hrun. discriminate Hrun.
Qed.

(** C2, amended. The outcome of the two direction writes does not reach
    bind: whenever the client data can be allocated, whatever the
    transport answers, bind issues both writes, returns 0 and goes on to
    create both attribute files; each file is there afterwards unless
    creating it failed, which bind ignores as well. *)
Theorem bind_ignores_init_failure (w : world) (driver_data : Z) :
  kzalloc_ok w = true ->
  exists w',
    run (chip_i2c_probe driver_data) w = Some (0, w') /\
    bus_log w' = (bus_log w ++ [WriteByte 0x00 0x00; WriteByte 0x01 0xFF])%list /\
    (sysfs_fault w dev_attr_chip_led = None -> dev_attr_chip_led ∈ sysfs w') /\
    (sysfs_fault w dev_attr_chip_switch = None ->
     dev_attr_chip_switch ∈ sysfs w').
Proof.
  intros Hok.
  destruct (run_chip_i2c_probe driver_data w Hok)
    as (w' & Hrun & Hlog & Hled & Hsw & _).
  exists w'. auto.
Qed.

Lemma bind_ignores_init_failure_witness :
  kzalloc_ok (unbound_world (fault_at 1)) = true /\
  bus_fault (unbound_world (fault_at 1)) 1%nat = Some EIO /\
  sysfs_fault (unbound_world (fault_at 1)) dev_attr_chip_led = None /\
  sysfs_fault (unbound_world (fault_at 1)) dev_attr_chip_switch = None /\
  exists w',
    run (chip_i2c_probe 0) (unbound_world (fault_at 1)) = Some (0, w') /\
    bus_log w' = [WriteByte 0x00 0x00; WriteByte 0x01 0xFF] /\
    dev_attr_chip_led ∈ sysfs w' /\ dev_attr_chip_switch ∈ sysfs w'.
Proof.
  split; [reflexivity |]. split; [reflexivity |].
  split; [reflexivity |]. split; [reflexivity |].
  destruct (bind_ignores_init_failure (unbound_world (fault_at 1)) 0 eq_refl)
    as (w' & Hrun & Hlog & Hled & Hsw).
  exists w'. split; [exact Hrun |]. split; [exact Hlog |].
  split; [exact (Hled eq_refl) | exact (Hsw eq_refl)].
Defined.




(** ** Timestamps *)

(** C6, as stated, fails: a successful store at tick 1000 leaves
    [led_last_updated] at 0. *)
Lemma store_leaves_timestamp_stale :
  ~ timestamps_updated (bound_world no_fault) "42" 2.
Proof.
  intros H. destruct (H eq_refl) as [Hset _].
  pose proof (run_set_chip_led (bound_world no_fault) zeroed_chip_data "42" 2 42
                eq_refl eq_refl eq_refl) as Hrun.
  specialize (Hset 2 _ zeroed_chip_data Hrun).
  discriminate Hset; [lia | reflexivity].
Qed.

(** C6, amended. With the mutex free, a store and a show each return,
    and whether their transaction succeeded or failed the client data is
    what it was: neither [led_last_updated] nor [switch_last_read]
    changes. *)
Theorem attribute_calls_keep_timestamps
  (w : world) (d : chip_data) (buf : string) (count : Z) :
  clientdata w = Some d -> update_lock d = false ->
  (exists r w' d', run (set_chip_led buf count) w = Some (r, w') /\
                   clientdata w' = Some d' /\
                   led_last_updated d' = led_last_updated d /\
                   switch_last_read d' = switch_last_read d) /\
  (exists r w' d', run get_chip_switch w = Some (r, w') /\
                   clientdata w' = Some d' /\
                   led_last_updated d' = led_last_updated d /\
                   switch_last_read d' = switch_last_read d).
Proof.
  intros Hd Hfree. split.
  - destruct (kstrtoint buf) as [e | v] eqn:Hparse.
    + exists (Z.neg e), w, d. unfold set_chip_led. rewrite Hparse. auto.
    + eexists _, _, d. split; [apply (run_set_chip_led w d buf count v); auto |].
      rewrite smbus_xfer_clientdata. auto.
  - eexists _, _, d. split; [apply (run_get_chip_switch w d); auto |].
    cbv zeta. rewrite smbus_xfer_clientdata. auto.
Qed.

Lemma attribute_calls_keep_timestamps_witness :
  clientdata (bound_world no_fault) = Some zeroed_chip_data /\
  update_lock zeroed_chip_data = false /\
  (exists r w' d', run (set_chip_led "42" 2) (bound_world no_fault) = Some (r, w') /\
                   clientdata w' = Some d' /\
                   led_last_updated d' = 0 /\ switch_last_read d' = 0) /\
  (exists r w' d', run get_chip_switch (bound_world no_fault) = Some (r, w') /\
                   clientdata w' = Some d' /\
                   led_last_updated d' = 0 /\ switch_last_read d' = 0).
Proof.
  split; [reflexivity |]. split; [reflexivity |].
  apply (attribute_calls_keep_timestamps (bound_world no_fault) zeroed_chip_data
           "42" 2); reflexivity.
Defined.

(** ** Mutual exclusion *)

Section Exclusion.
Import Concurrent.

Lemma disciplined_bind {A B} (p : prog A) (f : A -> prog B) (ph : phase) :
  disciplined ph p -> (forall a, disciplined Outside (f a)) ->
  disciplined ph (bind p f).
Proof.
  revert ph. induction p as [a | e k IH]; intros ph Hp Hf; simpl in *.
  - subst ph. apply Hf.
  - destruct e; try contradiction; destruct Hp as [-> Hk]; split; auto.
Qed.

Lemma disciplined_chip_read_value (reg : Z) :
  disciplined Outside (chip_read_value reg).
Proof. simpl. auto. Qed.

Lemma disciplined_chip_write_value (reg value : Z) :
  disciplined Outside (chip_write_value reg value).
Proof. simpl. auto. Qed.

Lemma disciplined_serve (r : request) : disciplined Outside (serve r).
Proof.
  destruct r as [buf count | | reg | reg value]; unfold serve.
  - apply disciplined_bind; [| reflexivity].
    unfold set_chip_led. destruct (kstrtoint buf); [reflexivity |].
    apply disciplined_bind; [apply disciplined_chip_write_value | reflexivity].
  - apply disciplined_bind; [| reflexivity].
    unfold get_chip_switch.
    apply disciplined_bind; [apply disciplined_chip_read_value | reflexivity].
  - apply disciplined_bind; [apply disciplined_chip_read_value | reflexivity].
  - apply disciplined_bind; [apply disciplined_chip_write_value | reflexivity].
Qed.

Lemma disciplined_serve_all (rs : list request) :
  disciplined Outside (serve_all rs).
Proof.
  induction rs as [| r rs IH]; simpl; [reflexivity |].
  apply disciplined_bind; [apply disciplined_serve | intros _; exact IH].
Qed.

Lemma pool_inv_spawn (w : world) (rss : list (list request)) :
  lock_held w = false -> pool_inv w (spawn rss).
Proof.
  intros Hfree. exists None. split.
  - intros [i Hi]. discriminate Hi.
  - intros i t Hi. unfold spawn in Hi.
    rewrite list_lookup_fmap in Hi.
    destruct (rss !! i) as [rs |]; [| discriminate Hi].
    injection Hi as <-. simpl. apply disciplined_serve_all.
Qed.

Lemma transport_keeps_lock (e : service) (w w' : world) (r : Z) :
  is_transport e = true -> handle e w = Some (r, w') ->
  lock_held w' = lock_held w.
Proof.
  intros He Hh. unfold lock_held.
  destruct e; try discriminate He; simpl in Hh;
    injection Hh as Hh; apply (f_equal snd) in Hh; simpl in Hh; subst w';
    rewrite smbus_xfer_clientdata; reflexivity.
Qed.

Lemma pool_inv_step {A} (w w' : world) (pool pool' : list (thread A)) :
  step (w, pool) (w', pool') -> pool_inv w pool -> pool_inv w' pool'.
Proof.
  intros Hstep (owner & Hheld & Hthreads).
  inversion Hstep as [i t t' w0 w0' pool0 Hi Ht]; subst.
  pose proof (Hthreads i t Hi) as Hok.
  assert (Hlen : (i < length pool)%nat) by (eapply lookup_lt_Some; eauto).
  inversion Ht as [w1 e k He | w1 e k r w1' Hh | w1 e k r w1' He Hh]; subst.
  - (* entering a transport call *)
    exists owner. split; [exact Hheld |].
    intros j tj Hj. destruct (decide (i = j)) as [<- | Hne].
    + rewrite list_lookup_insert_eq in Hj by exact Hlen. injection Hj as <-.
      simpl in *. destruct (bool_decide (owner = Some i)).
      * destruct e; try discriminate He; simpl in Hok;
          destruct Hok as [[_ Hk] | [Hph _]]; try discriminate Hph; auto.
      * destruct e; try discriminate He; simpl in Hok;
          destruct Hok as [Hph _]; discriminate Hph.
    + rewrite list_lookup_insert_ne in Hj by exact Hne. auto.
  - (* leaving a transport call *)
    simpl in Hok. destruct Hok as (Hown & He & Hk).
    exists owner. split.
    { intros Ho. rewrite (transport_keeps_lock e w w' r He Hh). auto. }
    intros j tj Hj. destruct (decide (i = j)) as [<- | Hne].
    + rewrite list_lookup_insert_eq in Hj by exact Hlen. injection Hj as <-.
      simpl. rewrite Hown. right. apply Hk.
    + rewrite list_lookup_insert_ne in Hj by exact Hne. auto.
  - (* any other service *)
    simpl in Hok. destruct e; try discriminate He.
    + (* mutex_init *)
      destruct (bool_decide (owner = Some i)); simpl in Hok; tauto.
    + (* mutex_lock: the mutex was free, so nobody owned it *)
      simpl in Hh. destruct (clientdata w) as [d |] eqn:Hd; [| discriminate Hh].
      simpl in Hh. destruct (update_lock d) eqn:Hl; [discriminate Hh |].
      injection Hh as <- <-.
      assert (Hnone : owner = None).
      { destruct owner as [o |]; [| reflexivity].
        assert (Ht' : lock_held w = true) by (apply Hheld; eauto).
        unfold lock_held in Ht'. rewrite Hd, Hl in Ht'. discriminate Ht'. }
      subst owner. rewrite bool_decide_eq_false_2 in Hok by discriminate.
      simpl in Hok. destruct Hok as [_ Hk].
      exists (Some i). split; [reflexivity |].
      intros j tj Hj. destruct (decide (i = j)) as [<- | Hne].
      * rewrite list_lookup_insert_eq in Hj by exact Hlen. injection Hj as <-.
        rewrite bool_decide_eq_true_2 by reflexivity. simpl. left. apply Hk.
      * rewrite list_lookup_insert_ne in Hj by exact Hne.
        rewrite bool_decide_eq_false_2 by congruence.
        specialize (Hthreads j tj Hj).
        rewrite bool_decide_eq_false_2 in Hthreads by discriminate.
        exact Hthreads.
    + (* mutex_unlock: only the owner gets here *)
      destruct (decide (owner = Some i)) as [-> | Hno].
      * rewrite bool_decide_eq_true_2 in Hok by reflexivity. simpl in Hok.
        destruct Hok as [[Hph _] | [_ Hk]]; [discriminate Hph |].
        exists None. split; [intros [o Ho]; discriminate Ho |].
        intros j tj Hj. destruct (decide (i = j)) as [<- | Hne].
        -- rewrite list_lookup_insert_eq in Hj by exact Hlen. injection Hj as <-.
           rewrite bool_decide_eq_false_2 by discriminate. simpl. apply Hk.
        -- rewrite list_lookup_insert_ne in Hj by exact Hne.
           rewrite bool_decide_eq_false_2 by discriminate.
           specialize (Hthreads j tj Hj).
           rewrite bool_decide_eq_false_2 in Hthreads by congruence.
           exact Hthreads.
      * rewrite bool_decide_eq_false_2 in Hok by exact Hno. simpl in Hok.
        destruct Hok as [Hph _]. discriminate Hph.
    + destruct (bool_decide (owner = Some i)); simpl in Hok; tauto.
    + destruct (bool_decide (owner = Some i)); simpl in Hok; tauto.
    + destruct (bool_decide (owner = Some i)); simpl in Hok; tauto.
    + destruct (bool_decide (owner = Some i)); simpl in Hok; tauto.
    + destruct (bool_decide (owner = Some i)); simpl in Hok; tauto.
Qed.

Lemma pool_inv_reachable {A} (s s' : world * list (thread A)) :
  rtc step s s' -> pool_inv s.1 s.2 -> pool_inv s'.1 s'.2.
Proof.
  induction 1 as [s | s1 s2 s3 Hstep _ IH]; [auto |].
  intros Hinv. apply IH.
  destruct s1 as [w1 p1], s2 as [w2 p2]. simpl in *.
  eapply pool_inv_step; eauto.
Qed.

Lemma at_most_one_in_flight {A} (pool : list (thread A)) :
  (forall i j ti tj, pool !! i = Some ti -> pool !! j = Some tj ->
                     in_flight ti = true -> in_flight tj = true -> i = j) ->
  (transactions_in_flight pool <= 1)%nat.
Proof.
  unfold transactions_in_flight.
  induction pool as [| t pool IH]; intros Huniq; simpl; [lia |].
  destruct (in_flight t) eqn:Ht.
  - assert (Hrest : List.filter in_flight pool = []).
    { destruct (List.filter in_flight pool) as [| t' l] eqn:E; [reflexivity |].
      assert (Hin : In t' (List.filter in_flight pool)) by (rewrite E; left; auto).
      apply filter_In in Hin as [Hin Ht'].
      apply list_elem_of_In, list_elem_of_lookup in Hin as [j Hj].
      specialize (Huniq 0%nat (S j) t t' eq_refl Hj Ht Ht'). discriminate Huniq. }
    rewrite Hrest. simpl. lia.
  - apply IH. intros i j ti tj Hi Hj Hti Htj.
    specialize (Huniq (S i) (S j) ti tj Hi Hj Hti Htj). lia.
Qed.

Lemma pool_inv_exclusive {A} (w : world) (pool : list (thread A)) :
  pool_inv w pool -> (transactions_in_flight pool <= 1)%nat.
Proof.
  intros (owner & _ & Hthreads). apply at_most_one_in_flight.
  intros i j ti tj Hi Hj Hti Htj.
  pose proof (Hthreads i ti Hi) as Hoi. pose proof (Hthreads j tj Hj) as Hoj.
  destruct ti; [discriminate Hti |]. destruct tj; [discriminate Htj |].
  simpl in Hoi, Hoj. destruct Hoi as [Hoi _], Hoj as [Hoj _].
  apply bool_decide_eq_true_1 in Hoi, Hoj. congruence.
Qed.

Lemma pool_inv_lock_held {A} (w : world) (pool : list (thread A)) :
  pool_inv w pool -> (0 < transactions_in_flight pool)%nat ->
  lock_held w = true.
Proof.
  intros (owner & Hheld & Hthreads) Hsome. unfold transactions_in_flight in Hsome.
  destruct (List.filter in_flight pool) as [| t l] eqn:E; [simpl in Hsome; lia |].
  assert (Hin : In t (List.filter in_flight pool)) by (rewrite E; left; auto).
  apply filter_In in Hin as [Hin Ht].
  apply list_elem_of_In, list_elem_of_lookup in Hin as [i Hi].
  specialize (Hthreads i t Hi). destruct t; [discriminate Ht |].
  simpl in Hthreads. destruct Hthreads as [Hown _].
  apply bool_decide_eq_true_1 in Hown. apply Hheld. rewrite Hown. eauto.
Qed.

End Exclusion.

Section ExclusionTheorem.
Import Concurrent.

(** Two callers, a store and a show: the store can take the mutex and
    be inside its transaction while the show has not moved. *)
Lemma two_callers_reach_a_transaction :
  exists w' pool',
    rtc step (bound_world no_fault, spawn [[StoreLed "42" 2]; [ShowSwitch]]) (w', pool') /\
    transactions_in_flight pool' = 1%nat.
Proof.
  eexists _, _. split.
  - eapply rtc_l.
    { apply (step_at 0 (Running (serve_all [StoreLed "42" 2])));
        [reflexivity |].
      apply step_service; [reflexivity | reflexivity]. }
    eapply rtc_l.
    { eapply (step_at 0); [reflexivity |].
      apply step_enter. reflexivity. }
    apply rtc_refl.
  - reflexivity.
Qed.

(** C1. [chip_read_value] and [chip_write_value] are each: take the
    client's mutex, make one transport call, release the mutex, return
    the transport's answer.  Consequently, however the stores, shows and
    direct register calls of any number of callers on one client
    interleave, starting with the mutex free, in every state they can
    reach at most one transport call is in progress, and while one is in
    progress the mutex is held. *)
Theorem transactions_never_overlap
  (w w' : world) (rss : list (list request)) (pool' : list (thread unit))
  (reg value : Z) :
  lock_held w = false ->
  rtc step (w, spawn rss) (w', pool') ->
  chip_read_value reg
  = Call mutex_lock (fun _ =>
      Call (i2c_smbus_read_byte_data (u8 reg)) (fun val =>
        Call mutex_unlock (fun _ => Ret val))) /\
  chip_write_value reg value
  = Call mutex_lock (fun _ =>
      Call (i2c_smbus_write_byte_data (u8 reg) (u16 value)) (fun ret =>
        Call mutex_unlock (fun _ => Ret ret))) /\
  (transactions_in_flight pool' <= 1)%nat /\
  ((0 < transactions_in_flight pool')%nat -> lock_held w' = true).
Proof.
  intros Hfree Hreach.
  split; [reflexivity |]. split; [reflexivity |].
  assert (Hinv : pool_inv w' pool').
  { apply (pool_inv_reachable _ _ Hreach). simpl.
    apply pool_inv_spawn, Hfree. }
  split; [apply (pool_inv_exclusive w'), Hinv |].
  apply pool_inv_lock_held, Hinv.
Qed.

Lemma transactions_never_overlap_witness :
  lock_held (bound_world no_fault) = false /\
  exists w' pool',
    rtc step (bound_world no_fault, spawn [[StoreLed "42" 2]; [ShowSwitch]]) (w', pool') /\
    transactions_in_flight pool' = 1%nat /\
    (transactions_in_flight pool' <= 1)%nat /\
    lock_held w' = true.
Proof.
  split; [reflexivity |].
  destruct two_callers_reach_a_transaction as (w' & pool' & Hreach & Hone).
  exists w', pool'. split; [exact Hreach |]. split; [exact Hone |].
  destruct (transactions_never_overlap (bound_world no_fault) w'
              [[StoreLed "42" 2]; [ShowSwitch]] pool' 0x13 0 eq_refl Hreach)
    as (_ & _ & Hmost & Hheld).
  split; [exact Hmost |]. apply Hheld. rewrite Hone. lia.
Defined.

End ExclusionTheorem.

(** * Further properties of the driver *)

Section SequentialSessions.
Import Concurrent Sessions.

Lemma smbus_xfer_idle (x : xfer) (w : world) :
  idle w -> idle (smbus_xfer x w).2.
Proof. unfold idle. rewrite smbus_xfer_clientdata. auto. Qed.

Lemma run_serve (r : request) (w : world) :
  idle w ->
  run (serve r) w
  = Some (tt, match transaction_of r with
              | Some x => (smbus_xfer x w).2
              | None => w
              end).
Proof.
  intros (d & Hd & Hfree).
  destruct r as [buf count | | reg | reg value]; unfold serve, transaction_of;
    rewrite run_bind.
  - destruct (kstrtoint buf) as [e | v] eqn:Hparse.
    + unfold set_chip_led. rewrite Hparse. reflexivity.
    + rewrite (run_set_chip_led w d buf count v Hd Hfree Hparse). reflexivity.
  - rewrite (run_get_chip_switch w d Hd Hfree). reflexivity.
  - rewrite (run_chip_read_value reg w d Hd Hfree).
    destruct (smbus_xfer (ReadByte (u8 reg)) w); reflexivity.
  - rewrite (run_chip_write_value reg value w d Hd Hfree).
    destruct (smbus_xfer (WriteByte (u8 reg) (u8 value)) w); reflexivity.
Qed.

(** X3. Requests served one after another on an idle bound client all
    return, leave the mutex free and the client data and attribute files
    as they were, and add to the transport log exactly one transaction
    per request, in request order (none for a store whose text kstrtoint
    rejects), whether or not any transaction fails: nothing is retried,
    cached or skipped. *)
Theorem requests_issue_one_transaction_each (rs : list request) (w : world) :
  idle w ->
  exists w',
    run (serve_all rs) w = Some (tt, w') /\
    idle w' /\
    clientdata w' = clientdata w /\
    sysfs w' = sysfs w /\
    bus_log w' = (bus_log w ++ omap transaction_of rs)%list.
Proof.
  revert w. induction rs as [| r rs IH]; intros w Hidle.
  - exists w. simpl. rewrite app_nil_r. auto.
  - cbn [serve_all]. rewrite run_bind, (run_serve r w Hidle).
    destruct (transaction_of r) as [x |] eqn:Hx.
    + destruct (IH (smbus_xfer x w).2 (smbus_xfer_idle x w Hidle))
        as (w' & Hrun & Hidle' & Hcd & Hfs & Hlog).
      exists w'. split; [exact Hrun |]. split; [exact Hidle' |].
      rewrite Hcd, Hfs, Hlog, smbus_xfer_clientdata, smbus_xfer_sysfs,
        smbus_xfer_log.
      split; [reflexivity |]. split; [reflexivity |].
      cbn [omap list_omap]. rewrite Hx, <- app_assoc. reflexivity.
    + destruct (IH w Hidle) as (w' & Hrun & Hidle' & Hcd & Hfs & Hlog).
      exists w'. split; [exact Hrun |]. split; [exact Hidle' |].
      split; [exact Hcd |]. split; [exact Hfs |].
      cbn [omap list_omap]. rewrite Hx. exact Hlog.
Qed.

Lemma requests_issue_one_transaction_each_witness :
  idle (bound_world (fault_at 1)) /\
  exists w',
    run (serve_all [StoreLed "42" 2; ShowSwitch; StoreLed "4 2" 3; WriteReg 0 0])
        (bound_world (fault_at 1)) = Some (tt, w') /\
    idle w' /\
    clientdata w' = Some zeroed_chip_data /\
    sysfs w' = [dev_attr_chip_switch; dev_attr_chip_led] /\
    bus_log w' = [WriteByte 0x14 42; ReadByte 0x13; WriteByte 0x00 0x00].
Proof.
  assert (Hidle : idle (bound_world (fault_at 1)))
    by (exists zeroed_chip_data; split; reflexivity).
  split; [exact Hidle |].
  exact (requests_issue_one_transaction_each
           [StoreLed "42" 2; ShowSwitch; StoreLed "4 2" 3; WriteReg 0 0]
           (bound_world (fault_at 1)) Hidle).
Defined.

(** Served one after another on an idle client, requests run to the
    end and log their transactions in order. *)
Lemma run_serve_all (rs : list request) (w : world) :
  idle w ->
  exists w',
    run (serve_all rs) w = Some (tt, w') /\
    idle w' /\
    bus_log w' = (bus_log w ++ omap transaction_of rs)%list.
Proof.
  revert w. induction rs as [| r rs IH]; intros w Hidle.
  - exists w. simpl. rewrite app_nil_r. auto.
  - cbn [serve_all]. rewrite run_bind, (run_serve r w Hidle).
    cbn [omap list_omap].
    destruct (transaction_of r) as [x |]; [| apply IH, Hidle].
    destruct (IH (smbus_xfer x w).2 (smbus_xfer_idle x w Hidle))
      as (w' & Hrun & Hidle' & Hlog).
    exists w'. split; [exact Hrun |]. split; [exact Hidle' |].
    rewrite Hlog, smbus_xfer_log, <- app_assoc. reflexivity.
Qed.

Lemma attribute_transactions (rs : list request) :
  forallb attribute_request rs = true ->
  Forall port_access (omap transaction_of rs).
Proof.
  induction rs as [| r rs IH]; intros Hattr; [constructor |].
  cbn [forallb] in Hattr. apply andb_true_iff in Hattr as [Hr Hrs].
  cbn [omap list_omap].
  destruct r as [buf count | | reg | reg value]; try discriminate Hr;
    unfold transaction_of.
  - destruct (kstrtoint buf) as [e | v]; [apply IH, Hrs |].
    constructor; [| apply IH, Hrs].
    right. exists (u8 v). split; [apply u8_range | reflexivity].
  - constructor; [left; reflexivity | apply IH, Hrs].
Qed.

(** X4. Requests that come through the two attribute files address
    only their ports: served on an idle bound client, every transaction
    they add to the log is a read of register 0x13 or a write of a byte to
    register 0x14; no direction register is written again and no other
    register is read. *)
Theorem attribute_requests_address_only_their_ports
  (rs : list request) (w : world) :
  idle w -> forallb attribute_request rs = true ->
  exists w' l,
    run (serve_all rs) w = Some (tt, w') /\
    bus_log w' = (bus_log w ++ l)%list /\
    Forall port_access l.
Proof.
  intros Hidle Hattr.
  destruct (run_serve_all rs w Hidle) as (w' & Hrun & _ & Hlog).
  exists w', (omap transaction_of rs).
  split; [exact Hrun |]. split; [exact Hlog |].
  apply attribute_transactions, Hattr.
Qed.

Lemma attribute_requests_address_only_their_ports_witness :
  idle (bound_world (fault_at 0)) /\
  forallb attribute_request [StoreLed "-1" 2; ShowSwitch; StoreLed "300" 3] = true /\
  exists w' l,
    run (serve_all [StoreLed "-1" 2; ShowSwitch; StoreLed "300" 3])
        (bound_world (fault_at 0)) = Some (tt, w') /\
    bus_log w' = ([] ++ l)%list /\
    Forall port_access l.
Proof.
  assert (Hidle : idle (bound_world (fault_at 0)))
    by (exists zeroed_chip_data; split; reflexivity).
  split; [exact Hidle |]. split; [reflexivity |].
  exact (attribute_requests_address_only_their_ports
           [StoreLed "-1" 2; ShowSwitch; StoreLed "300" 3]
           (bound_world (fault_at 0)) Hidle eq_refl).
Defined.

End SequentialSessions.

Section BindAndUnbind.
Import Sessions.

(** X1. When the client data cannot be allocated, bind returns -ENOMEM
    and has done nothing: no transaction, no attribute file, no client
    data. *)
Theorem bind_without_memory (w : world) (driver_data : Z) :
  kzalloc_ok w = false ->
  run (chip_i2c_probe driver_data) w = Some (Z.neg ENOMEM, w).
Proof.
  intros Hno. unfold chip_i2c_probe.
  rewrite run_call. cbn [handle]. rewrite Hno. reflexivity.
Qed.

Lemma bind_without_memory_witness :
  kzalloc_ok (starved_world no_fault) = false /\
  run (chip_i2c_probe 0) (starved_world no_fault)
  = Some (-12, starved_world no_fault).
Proof.
  split; [reflexivity |].
  apply (bind_without_memory (starved_world no_fault) 0).
  reflexivity.
Defined.

(** X2. Bind with memory available leaves the client ready for use,
    whatever the transport and sysfs answered on the way: the client data
    is zeroed with [kind] set from the id table entry, the mutex is free,
    and any requests served afterwards run to the end, so that the log
    reads: the two direction writes, then the requests' transactions in
    order. *)
Theorem bind_then_requests
  (w : world) (driver_data : Z) (rs : list Concurrent.request) :
  kzalloc_ok w = true ->
  exists w1 w2,
    run (chip_i2c_probe driver_data) w = Some (0, w1) /\
    clientdata w1 = Some (mk_chip_data false 0 0 (s32 driver_data)) /\
    run (Concurrent.serve_all rs) w1 = Some (tt, w2) /\
    bus_log w2 = (bus_log w ++ [WriteByte 0x00 0x00; WriteByte 0x01 0xFF]
                    ++ omap transaction_of rs)%list.
Proof.
  intros Hok.
  destruct (run_chip_i2c_probe driver_data w Hok)
    as (w1 & Hrun & Hlog & _ & _ & Hcd).
  assert (Hidle : idle w1) by (eexists; split; [exact Hcd | reflexivity]).
  destruct (run_serve_all rs w1 Hidle) as (w2 & Hrun2 & _ & Hlog2).
  exists w1, w2. split; [exact Hrun |]. split; [exact Hcd |].
  split; [exact Hrun2 |]. rewrite Hlog2, Hlog, <- app_assoc. reflexivity.
Qed.

Lemma bind_then_requests_witness :
  kzalloc_ok (unbound_world (fault_at 0)) = true /\
  exists w1 w2,
    run (chip_i2c_probe 0) (unbound_world (fault_at 0)) = Some (0, w1) /\
    clientdata w1 = Some (mk_chip_data false 0 0 0) /\
    run (Concurrent.serve_all [Concurrent.StoreLed "42" 2; Concurrent.ShowSwitch]) w1
    = Some (tt, w2) /\
    bus_log w2 = [WriteByte 0x00 0x00; WriteByte 0x01 0xFF;
                  WriteByte 0x14 42; ReadByte 0x13].
Proof.
  split; [reflexivity |].
  exact (bind_then_requests (unbound_world (fault_at 0)) 0
           [Concurrent.StoreLed "42" 2; Concurrent.ShowSwitch] eq_refl).
Defined.

(** X8. Bind followed by unbind: both return 0, the transport has seen
    the two direction writes and nothing else, no attribute file is left,
    and unbind has kept the chip registers and the client data as bind
    left them. *)
Theorem bind_then_unbind (w : world) (driver_data : Z) :
  kzalloc_ok w = true ->
  exists w1 w2,
    run (chip_i2c_probe driver_data) w = Some (0, w1) /\
    run chip_i2c_remove w1 = Some (0, w2) /\
    bus_log w2 = (bus_log w ++ [WriteByte 0x00 0x00; WriteByte 0x01 0xFF])%list /\
    sysfs w2 = [] /\
    chip_regs w2 = chip_regs w1 /\
    clientdata w2 = Some (mk_chip_data false 0 0 (s32 driver_data)).
Proof.
  intros Hok.
  destruct (run_chip_i2c_probe driver_data w Hok)
    as (w1 & Hrun & Hlog & _ & _ & Hcd).
  exists w1. eexists. split; [exact Hrun |]. split; [reflexivity |].
  simpl. split; [exact Hlog |]. split; [| split; [reflexivity | exact Hcd]].
  destruct (filter _ (filter _ (sysfs w1))) as [| a l] eqn:E; [reflexivity |].
  assert (Hin : a ∈ filter (fun b => b ≠ dev_attr_chip_switch)
                    (filter (fun b => b ≠ dev_attr_chip_led) (sysfs w1)))
    by (rewrite E; apply list_elem_of_here).
  rewrite !list_elem_of_filter in Hin. destruct a; tauto.
Qed.

Lemma bind_then_unbind_witness :
  kzalloc_ok (unbound_world no_fault) = true /\
  exists w1 w2,
    run (chip_i2c_probe 0) (unbound_world no_fault) = Some (0, w1) /\
    run chip_i2c_remove w1 = Some (0, w2) /\
    bus_log w2 = [WriteByte 0x00 0x00; WriteByte 0x01 0xFF] /\
    sysfs w2 = [] /\
    chip_regs w2 = chip_regs w1 /\
    clientdata w2 = Some (mk_chip_data false 0 0 0).
Proof.
  split; [reflexivity |].
  exact (bind_then_unbind (unbound_world no_fault) 0 eq_refl).
Defined.

End BindAndUnbind.

Section AttributeFiles.
Import Sessions.

Lemma _kstrtoull_errors (s : string) (e : errno) :
  _kstrtoull s = inl e -> e = EINVAL \/ e = ERANGE.
Proof.
  unfold _kstrtoull.
  destruct (_parse_integer s 0 0 false) as [[[res rv] ovf] rest].
  destruct ovf; [intros [= <-]; auto |].
  destruct (rv =? 0); [intros [= <-]; auto |].
  destruct rest as [| c r]; [discriminate |].
  destruct (Ascii.eqb c LF); [| intros [= <-]; auto].
  destruct r; [discriminate | intros [= <-]; auto].
Qed.

Lemma kstrtoint_errors (buf : string) (e : errno) :
  kstrtoint buf = inl e -> e = EINVAL \/ e = ERANGE.
Proof.
  unfold kstrtoint, kstrtoll, kstrtoull.
  destruct (Ascii.eqb (first_char (cstr buf)) "-").
  - destruct (_kstrtoull (skip_char (cstr buf))) as [e' | tmp] eqn:E.
    + intros [= <-]. eapply _kstrtoull_errors, E.
    + destruct (s64 (- tmp) >? 0); [intros [= <-]; auto |].
      destruct (_ =? _); [discriminate | intros [= <-]; auto].
  - destruct (if Ascii.eqb (first_char (cstr buf)) "+"
              then _kstrtoull (skip_char (cstr buf))
              else _kstrtoull (cstr buf)) as [e' | tmp] eqn:E.
    + intros [= <-].
      destruct (Ascii.eqb (first_char (cstr buf)) "+");
        eapply _kstrtoull_errors, E.
    + destruct (s64 tmp <? 0); [intros [= <-]; auto |].
      destruct (_ =? _); [discriminate | intros [= <-]; auto].
Qed.

(** X5. What a store on an idle bound client does is decided by the
    decimal reading of its text (up to the first NUL; a negative zero
    aside), for a byte count that fits [ssize_t].  A text denoting an
    integer v in the range of [int]: the store returns [count] after the
    one write of v mod 2^8 to register 0x14.  A text denoting an integer
    outside that range: -ERANGE.  Any other text: -EINVAL or -ERANGE.  In
    the last two cases the machine is left exactly as it was; the return
    value is never the transport's. *)
Theorem store_by_decimal_reading (w : world) (buf : string) (count : Z) :
  idle w ->
  negative_zero (cstr buf) = false ->
  0 <= count <= SSIZE_MAX ->
  exists r w',
    run (set_chip_led buf count) w = Some (r, w') /\
    match decimal_value (cstr buf) with
    | Some v =>
        if fits_int v
        then r = count /\ w' = (smbus_xfer (WriteByte 0x14 (v mod 2 ^ 8)) w).2
        else r = -34 /\ w' = w
    | None => (r = -22 \/ r = -34) /\ w' = w
    end.
Proof.
  intros (d & Hd & Hfree) _ Hcount.
  pose proof (kstrtoint_decimal buf) as Hspec.
  destruct (kstrtoint buf) as [e | v] eqn:Hparse.
  - exists (Z.neg e), w. unfold set_chip_led. rewrite Hparse.
    split; [reflexivity |].
    destruct (decimal_value (cstr buf)) as [v |].
    + destruct (fits_int v); [discriminate Hspec |].
      injection Hspec as ->. auto.
    + destruct (kstrtoint_errors buf e Hparse) as [-> | ->]; auto.
  - eexists count, _.
    split; [rewrite (run_set_chip_led w d buf count v Hd Hfree Hparse),
              (ssize_t_size_t count Hcount); reflexivity |].
    destruct (decimal_value (cstr buf)) as [v' |].
    + destruct (fits_int v'); [| discriminate Hspec].
      injection Hspec as ->. rewrite u8_mod. auto.
    + destruct Hspec as [e He]. discriminate He.
Qed.

Lemma store_by_decimal_reading_witness :
  idle (bound_world (fault_at 0)) /\
  (negative_zero (cstr "-1") = false /\ 0 <= 2 <= SSIZE_MAX /\
   exists r w',
     run (set_chip_led "-1" 2) (bound_world (fault_at 0)) = Some (r, w') /\
     r = 2 /\ w' = (smbus_xfer (WriteByte 0x14 255) (bound_world (fault_at 0))).2) /\
  (negative_zero (cstr "2147483648") = false /\ 0 <= 10 <= SSIZE_MAX /\
   exists r w',
     run (set_chip_led "2147483648" 10) (bound_world (fault_at 0)) = Some (r, w') /\
     r = -34 /\ w' = bound_world (fault_at 0)) /\
  (negative_zero (cstr "0x10") = false /\ 0 <= 4 <= SSIZE_MAX /\
   exists r w',
     run (set_chip_led "0x10" 4) (bound_world (fault_at 0)) = Some (r, w') /\
     (r = -22 \/ r = -34) /\ w' = bound_world (fault_at 0)).
Proof.
  assert (Hidle : idle (bound_world (fault_at 0)))
    by (exists zeroed_chip_data; split; reflexivity).
  assert (Hfits : forall n, 0 <= n <= 10 -> 0 <= n <= SSIZE_MAX)
    by (intros n Hn; unfold SSIZE_MAX, BITS_PER_LONG; lia).
  split; [exact Hidle |]. split; [| split].
  - split; [reflexivity |]. split; [apply Hfits; lia |].
    exact (store_by_decimal_reading (bound_world (fault_at 0)) "-1" 2
             Hidle eq_refl (Hfits 2 ltac:(lia))).
  - split; [reflexivity |]. split; [apply Hfits; lia |].
    exact (store_by_decimal_reading (bound_world (fault_at 0)) "2147483648" 10
             Hidle eq_refl (Hfits 10 ltac:(lia))).
  - split; [reflexivity |]. split; [apply Hfits; lia |].
    exact (store_by_decimal_reading (bound_world (fault_at 0)) "0x10" 4
             Hidle eq_refl (Hfits 4 ltac:(lia))).
Defined.

(** X13. A store sees only the low byte of the number: two texts that
    kstrtoint accepts with values equal modulo 2^8 (such as "-1" and
    "255") have the same effect and the same result. *)
Theorem stores_alias_modulo_256
  (w : world) (buf1 buf2 : string) (count v1 v2 : Z) :
  idle w ->
  kstrtoint buf1 = inr v1 -> kstrtoint buf2 = inr v2 ->
  v1 mod 2 ^ 8 = v2 mod 2 ^ 8 ->
  run (set_chip_led buf1 count) w = run (set_chip_led buf2 count) w.
Proof.
  intros (d & Hd & Hfree) H1 H2 Hmod.
  rewrite (run_set_chip_led w d buf1 count v1 Hd Hfree H1).
  rewrite (run_set_chip_led w d buf2 count v2 Hd Hfree H2).
  rewrite !u8_mod, Hmod. reflexivity.
Qed.

Lemma stores_alias_modulo_256_witness :
  idle (bound_world no_fault) /\
  kstrtoint "-1" = inr (-1) /\ kstrtoint "255" = inr 255 /\
  (-1) mod 2 ^ 8 = 255 mod 2 ^ 8 /\
  run (set_chip_led "-1" 3) (bound_world no_fault)
  = run (set_chip_led "255" 3) (bound_world no_fault).
Proof.
  assert (Hidle : idle (bound_world no_fault))
    by (exists zeroed_chip_data; split; reflexivity).
  split; [exact Hidle |]. split; [reflexivity |]. split; [reflexivity |].
  split; [reflexivity |].
  apply (stores_alias_modulo_256 (bound_world no_fault) "-1" "255" 3 (-1) 255 Hidle);
    reflexivity.
Defined.

(** kstrtoint reads back what "%d\n" prints for a byte. *)
Lemma kstrtoint_sprintf_byte (v : Z) :
  0 <= v < 256 -> kstrtoint (sprintf_d_nl v) = inr v.
Proof.
  intros Hv.
  assert (H : forallb (fun n => match kstrtoint (sprintf_d_nl (Z.of_nat n)) with
                                | inr v' => v' =? Z.of_nat n
                                | inl _ => false
                                end) (seq 0 256) = true)
    by (vm_compute; reflexivity).
  rewrite forallb_forall in H. specialize (H (Z.to_nat v)).
  rewrite Z2Nat.id in H by lia.
  assert (Hin : In (Z.to_nat v) (seq 0 256)) by (apply in_seq; lia).
  specialize (H Hin).
  destruct (kstrtoint (sprintf_d_nl v)) as [e | v']; [discriminate H |].
  apply Z.eqb_eq in H. congruence.
Qed.

(** The line "%d\n" prints for a byte is two to four characters long. *)
Lemma sprintf_byte_length (v : Z) :
  0 <= v < 256 -> 2 <= Z.of_nat (String.length (sprintf_d_nl v)) <= 4.
Proof.
  intros Hv.
  assert (H : forallb (fun n =>
                let len := Z.of_nat (String.length (sprintf_d_nl (Z.of_nat n))) in
                (2 <=? len) && (len <=? 4)) (seq 0 256) = true)
    by (vm_compute; reflexivity).
  rewrite forallb_forall in H. specialize (H (Z.to_nat v)).
  rewrite Z2Nat.id in H by lia.
  assert (Hin : In (Z.to_nat v) (seq 0 256)) by (apply in_seq; lia).
  specialize (H Hin). cbv zeta in H.
  apply andb_true_iff in H as [H1 H2]. apply Z.leb_le in H1, H2. lia.
Qed.

(** X6. Copying the switches to the LEDs: when a show on an idle bound
    client reads byte v, handing the text and length it produced to a
    store makes the store accept it and write that same v to the output
    latch; the transport sees the read of 0x13 and then the write of v
    to 0x14. *)
Theorem show_then_store_mirrors_switches (w : world) (v : Z) :
  idle w ->
  (smbus_xfer (ReadByte 0x13) w).1 = v -> 0 <= v ->
  exists n text w1 w2,
    run get_chip_switch w = Some ((n, text), w1) /\
    run (set_chip_led text n) w1 = Some (n, w2) /\
    bus_log w2 = (bus_log w ++ [ReadByte 0x13; WriteByte 0x14 v])%list.
Proof.
  intros (d & Hd & Hfree) Hv Hpos.
  assert (Hbyte : 0 <= v < 256).
  { pose proof (smbus_read_result 0x13 w) as Hr. cbv zeta in Hr. rewrite Hv in Hr.
    destruct (bus_fault w (length (bus_log w))); [lia |].
    rewrite Hr. apply u8_range. }
  set (w1 := (smbus_xfer (ReadByte 0x13) w).2).
  assert (Hd1 : clientdata w1 = Some d)
    by (unfold w1; rewrite smbus_xfer_clientdata; exact Hd).
  exists (Z.of_nat (String.length (sprintf_d_nl v))), (sprintf_d_nl v), w1.
  eexists. split.
  { rewrite (run_get_chip_switch w d Hd Hfree). cbv zeta. rewrite Hv. reflexivity. }
  split.
  { rewrite (run_set_chip_led w1 d _ _ v Hd1 Hfree
               (kstrtoint_sprintf_byte v Hbyte)).
    rewrite ssize_t_size_t; [reflexivity |].
    pose proof (sprintf_byte_length v Hbyte).
    unfold SSIZE_MAX, BITS_PER_LONG. lia. }
  rewrite smbus_xfer_log. unfold w1. rewrite smbus_xfer_log, <- app_assoc.
  rewrite u8_mod, Z.mod_small by lia. reflexivity.
Qed.

Lemma show_then_store_mirrors_switches_witness :
  idle (bound_world no_fault) /\
  (smbus_xfer (ReadByte 0x13) (bound_world no_fault)).1 = 7 /\ 0 <= 7 /\
  exists n text w1 w2,
    run get_chip_switch (bound_world no_fault) = Some ((n, text), w1) /\
    run (set_chip_led text n) w1 = Some (n, w2) /\
    bus_log w2 = [ReadByte 0x13; WriteByte 0x14 7].
Proof.
  assert (Hidle : idle (bound_world no_fault))
    by (exists zeroed_chip_data; split; reflexivity).
  split; [exact Hidle |]. split; [reflexivity |]. split; [lia |].
  apply (show_then_store_mirrors_switches (bound_world no_fault) 7 Hidle);
    [reflexivity | lia].
Defined.

End AttributeFiles.

Section Progress.
Import Concurrent Sessions.

Lemma pool_live_spawn (w : world) (rss : list (list request)) :
  is_Some (clientdata w) -> lock_held w = false -> pool_live w (spawn rss).
Proof.
  intros Hcd Hfree. split; [exact Hcd |]. exists None. split; [| split].
  - rewrite Hfree. split; [discriminate | intros [i Hi]; discriminate Hi].
  - discriminate.
  - intros i t Hi. unfold spawn in Hi. rewrite list_lookup_fmap in Hi.
    destruct (rss !! i) as [rs |]; [| discriminate Hi].
    injection Hi as <-. simpl. apply disciplined_serve_all.
Qed.

Lemma insert_keeps_slot {A} (pool : list A) (i j : nat) (x : A) :
  is_Some (pool !! j) -> is_Some (<[i := x]> pool !! j).
Proof.
  rewrite !lookup_lt_is_Some, length_insert. auto.
Qed.

Lemma transport_keeps_clientdata (e : service) (w w' : world) (r : Z) :
  is_transport e = true -> handle e w = Some (r, w') ->
  clientdata w' = clientdata w.
Proof.
  intros He Hh.
  destruct e; try discriminate He; simpl in Hh;
    injection Hh as Hh; apply (f_equal snd) in Hh; simpl in Hh; subst w';
    apply smbus_xfer_clientdata.
Qed.

Lemma pool_live_step {A} (w w' : world) (pool pool' : list (thread A)) :
  step (w, pool) (w', pool') -> pool_live w pool -> pool_live w' pool'.
Proof.
  intros Hstep (Hcd & owner & Hheld & Hslot & Hthreads).
  inversion Hstep as [i t t' w0 w0' pool0 Hi Ht]; subst.
  pose proof (Hthreads i t Hi) as Hok.
  assert (Hlen : (i < length pool)%nat) by (eapply lookup_lt_Some; eauto).
  inversion Ht as [w1 e k He | w1 e k r w1' Hh | w1 e k r w1' He Hh]; subst.
  - (* entering a transport call *)
    split; [exact Hcd |]. exists owner. split; [exact Hheld |].
    split; [intros j Hj; apply insert_keeps_slot, Hslot, Hj |].
    intros j tj Hj. destruct (decide (i = j)) as [<- | Hne].
    + rewrite list_lookup_insert_eq in Hj by exact Hlen. injection Hj as <-.
      simpl in *. destruct (bool_decide (owner = Some i)).
      * destruct e; try discriminate He; simpl in Hok;
          destruct Hok as [[_ Hk] | [Hph _]]; try discriminate Hph; auto.
      * destruct e; try discriminate He; simpl in Hok;
          destruct Hok as [Hph _]; discriminate Hph.
    + rewrite list_lookup_insert_ne in Hj by exact Hne. auto.
  - (* leaving a transport call *)
    simpl in Hok. destruct Hok as (Hown & He & Hk).
    split; [rewrite (transport_keeps_clientdata e w w' r He Hh); exact Hcd |].
    exists owner. split.
    { rewrite (transport_keeps_lock e w w' r He Hh). exact Hheld. }
    split; [intros j Hj; apply insert_keeps_slot, Hslot, Hj |].
    intros j tj Hj. destruct (decide (i = j)) as [<- | Hne].
    + rewrite list_lookup_insert_eq in Hj by exact Hlen. injection Hj as <-.
      simpl. rewrite Hown. right. apply Hk.
    + rewrite list_lookup_insert_ne in Hj by exact Hne. auto.
  - (* any other service *)
    simpl in Hok. destruct e; try discriminate He;
      try (destruct (bool_decide (owner = Some i)); simpl in Hok; tauto).
    + (* mutex_lock *)
      simpl in Hh. destruct (clientdata w) as [d |] eqn:Hd; [| discriminate Hh].
      simpl in Hh. destruct (update_lock d) eqn:Hl; [discriminate Hh |].
      injection Hh as <- <-.
      assert (Hnone : owner = None).
      { destruct owner as [o |]; [| reflexivity].
        assert (Ht' : lock_held w = true) by (apply Hheld; eauto).
        unfold lock_held in Ht'. rewrite Hd, Hl in Ht'. discriminate Ht'. }
      subst owner. rewrite bool_decide_eq_false_2 in Hok by discriminate.
      simpl in Hok. destruct Hok as [_ Hk].
      split; [simpl; eauto |].
      exists (Some i). split; [split; [eauto | reflexivity] |].
      split.
      { intros j [= <-]. apply insert_keeps_slot. eauto. }
      intros j tj Hj. destruct (decide (i = j)) as [<- | Hne].
      * rewrite list_lookup_insert_eq in Hj by exact Hlen. injection Hj as <-.
        rewrite bool_decide_eq_true_2 by reflexivity. simpl. left. apply Hk.
      * rewrite list_lookup_insert_ne in Hj by exact Hne.
        rewrite bool_decide_eq_false_2 by congruence.
        specialize (Hthreads j tj Hj).
        rewrite bool_decide_eq_false_2 in Hthreads by discriminate.
        exact Hthreads.
    + (* mutex_unlock *)
      simpl in Hh. destruct (clientdata w) as [d |] eqn:Hd; [| discriminate Hh].
      simpl in Hh. injection Hh as <- <-.
      destruct (decide (owner = Some i)) as [-> | Hno].
      * rewrite bool_decide_eq_true_2 in Hok by reflexivity. simpl in Hok.
        destruct Hok as [[Hph _] | [_ Hk]]; [discriminate Hph |].
        split; [simpl; eauto |].
        exists None. split.
        { split; [discriminate | intros [o Ho]; discriminate Ho]. }
        split; [discriminate |].
        intros j tj Hj. destruct (decide (i = j)) as [<- | Hne].
        -- rewrite list_lookup_insert_eq in Hj by exact Hlen. injection Hj as <-.
           rewrite bool_decide_eq_false_2 by discriminate. simpl. apply Hk.
        -- rewrite list_lookup_insert_ne in Hj by exact Hne.
           rewrite bool_decide_eq_false_2 by discriminate.
           specialize (Hthreads j tj Hj).
           rewrite bool_decide_eq_false_2 in Hthreads by congruence.
           exact Hthreads.
      * rewrite bool_decide_eq_false_2 in Hok by exact Hno. simpl in Hok.
        destruct Hok as [Hph _]. discriminate Hph.
Qed.

Lemma pool_live_reachable {A} (s s' : world * list (thread A)) :
  rtc step s s' -> pool_live s.1 s.2 -> pool_live s'.1 s'.2.
Proof.
  induction 1 as [s | s1 s2 s3 Hstep _ IH]; [auto |].
  intros Hinv. apply IH.
  destruct s1 as [w1 p1], s2 as [w2 p2]. simpl in *.
  eapply pool_live_step; eauto.
Qed.

Lemma unfinished_thread {A} (pool : list (thread A)) :
  forallb finished pool = true \/
  exists i t, pool !! i = Some t /\ finished t = false.
Proof.
  induction pool as [| t pool IH]; simpl; [auto |].
  destruct (finished t) eqn:Ht.
  - destruct IH as [Hall | (i & t' & Hi & Ht')]; [auto |].
    right. exists (S i), t'. auto.
  - right. exists 0%nat, t. auto.
Qed.

Lemma pool_live_progress {A} (w : world) (pool : list (thread A)) :
  pool_live w pool ->
  (exists s', step (w, pool) s') \/
  (forallb finished pool = true /\ lock_held w = false).
Proof.
  intros ([d Hd] & owner & Hheld & Hslot & Hthreads).
  destruct owner as [i |].
  - (* the owner can always move *)
    left. destruct (Hslot i eq_refl) as [t Hi].
    pose proof (Hthreads i t Hi) as Hok.
    rewrite bool_decide_eq_true_2 in Hok by reflexivity.
    destruct t as [p | e k]; simpl in Hok.
    + destruct p as [a | e k]; simpl in Hok.
      { destruct Hok as [Hph | Hph]; discriminate Hph. }
      destruct e; simpl in Hok;
        try (destruct Hok as [[Hph _] | [Hph _]]; discriminate Hph);
        try tauto.
      * eexists. eapply step_at; [exact Hi |].
        eapply step_service; [reflexivity |]. simpl. rewrite Hd. reflexivity.
      * eexists. eapply step_at; [exact Hi |]. apply step_enter. reflexivity.
      * eexists. eapply step_at; [exact Hi |]. apply step_enter. reflexivity.
    + destruct Hok as (_ & He & _).
      destruct (handle e w) as [[r w1] |] eqn:Hh.
      * eexists. eapply step_at; [exact Hi |]. eapply step_leave. exact Hh.
      * destruct e; discriminate.
  - (* the mutex is free: whoever has not returned can take it *)
    assert (Hfree : lock_held w = false).
    { destruct (lock_held w) eqn:E; [| reflexivity].
      destruct (proj1 Hheld eq_refl) as [o Ho]. discriminate Ho. }
    destruct (unfinished_thread pool) as [Hall | (i & t & Hi & Ht)]; [auto |].
    left. pose proof (Hthreads i t Hi) as Hok.
    rewrite bool_decide_eq_false_2 in Hok by discriminate.
    destruct t as [p | e k]; simpl in Hok; [| destruct Hok as [Hown _]; discriminate Hown].
    destruct p as [a | e k]; [discriminate Ht |].
    destruct e; simpl in Hok; try tauto;
      try (destruct Hok as [Hph _]; discriminate Hph).
    eexists. eapply step_at; [exact Hi |].
    eapply step_service; [reflexivity |].
    unfold lock_held in Hfree. simpl. rewrite Hd in Hfree |- *. simpl.
    rewrite Hfree. reflexivity.
Qed.

(** X7. Callers on one bound client never deadlock: starting with the
    mutex free, in every state that stores, shows and direct register
    calls of any number of callers can reach, either some caller can take
    its next step, or every caller has returned and the mutex is free. *)
Theorem callers_never_deadlock
  (w w' : world) (rss : list (list request)) (pool' : list (thread unit)) :
  is_Some (clientdata w) -> lock_held w = false ->
  rtc step (w, spawn rss) (w', pool') ->
  (exists s'', step (w', pool') s'') \/
  (forallb finished pool' = true /\ lock_held w' = false).
Proof.
  intros Hcd Hfree Hreach.
  apply pool_live_progress.
  apply (pool_live_reachable _ _ Hreach). simpl.
  apply pool_live_spawn; assumption.
Qed.

End Progress.

Section Schedules.
Import Concurrent Sessions.

Lemma script_bind {A B} (p : prog A) (f : A -> prog B) :
  script (bind p f) = (script p ++ script (f (result0 p)))%list.
Proof.
  induction p as [a | e k IH]; simpl; [reflexivity |].
  rewrite IH. reflexivity.
Qed.

Lemma uniform_bind {A B} (p : prog A) (f : A -> prog B) :
  uniform p -> (forall a, uniform (f a)) ->
  (forall a b, script (f a) = script (f b)) ->
  uniform (bind p f).
Proof.
  intros Hp Hf Hsame. induction p as [a | e k IH]; simpl in *; [apply Hf |].
  intros r. destruct (Hp r) as [Hs Hu]. split; [| apply IH, Hu].
  rewrite !script_bind, Hs. f_equal. apply Hsame.
Qed.

Lemma uniform_chip_read_value (reg : Z) : uniform (chip_read_value reg).
Proof. simpl. auto. Qed.

Lemma uniform_chip_write_value (reg value : Z) :
  uniform (chip_write_value reg value).
Proof. simpl. auto. Qed.

Lemma uniform_serve (r : request) : uniform (serve r).
Proof.
  destruct r as [buf count | | reg | reg value]; unfold serve.
  - apply uniform_bind; [| simpl; auto | reflexivity].
    unfold set_chip_led. destruct (kstrtoint buf); [exact I |].
    apply uniform_bind; [apply uniform_chip_write_value | simpl; auto | reflexivity].
  - apply uniform_bind; [| simpl; auto | reflexivity].
    unfold get_chip_switch.
    apply uniform_bind; [apply uniform_chip_read_value | simpl; auto | reflexivity].
  - apply uniform_bind; [apply uniform_chip_read_value | simpl; auto | reflexivity].
  - apply uniform_bind; [apply uniform_chip_write_value | simpl; auto | reflexivity].
Qed.

Lemma uniform_serve_all (rs : list request) : uniform (serve_all rs).
Proof.
  induction rs as [| r rs IH]; simpl; [exact I |].
  apply uniform_bind; [apply uniform_serve | intros _; exact IH | reflexivity].
Qed.

Lemma script_serve (r : request) :
  omap xfer_of_service (script (serve r)) = option_list (transaction_of r) /\
  (sum_list_with service_steps (script (serve r)) <= 4)%nat.
Proof.
  destruct r as [buf count | | reg | reg value]; unfold serve, transaction_of;
    rewrite script_bind.
  - unfold set_chip_led. destruct (kstrtoint buf) as [e | v].
    + simpl. split; [reflexivity | lia].
    + rewrite script_bind. simpl. rewrite u8_idem, !u8_u16.
      split; [reflexivity | lia].
  - unfold get_chip_switch. rewrite script_bind. simpl.
    split; [reflexivity | lia].
  - simpl. rewrite u8_idem. split; [reflexivity | lia].
  - simpl. rewrite u8_idem, u8_u16. split; [reflexivity | lia].
Qed.

Lemma script_serve_all (rs : list request) :
  omap xfer_of_service (script (serve_all rs)) = omap transaction_of rs /\
  (sum_list_with service_steps (script (serve_all rs)) <= 4 * length rs)%nat.
Proof.
  induction rs as [| r rs [IHx IHn]]; [split; [reflexivity | simpl; lia] |].
  cbn [serve_all]. rewrite script_bind, omap_app, sum_list_with_app.
  destruct (script_serve r) as [Hx Hn]. rewrite Hx, IHx.
  split; [| cbn [length]; lia].
  cbn [omap list_omap]. destruct (transaction_of r); reflexivity.
Qed.

Lemma handle_keeps_log (e : service) (w w' : world) (r : Z) :
  is_transport e = false -> handle e w = Some (r, w') ->
  bus_log w' = bus_log w.
Proof.
  intros He Hh. destruct e; try discriminate He; simpl in Hh;
    repeat match type of Hh with
           | context [clientdata w] =>
               destruct (clientdata w) as [d |]; simpl in Hh; [| discriminate Hh]
           | context [update_lock ?d] =>
               destruct (update_lock d); [discriminate Hh |]
           | context [sysfs_fault w ?a] => destruct (sysfs_fault w a)
           | context [decide ?P] => destruct (decide P)
           end;
    injection Hh as Hr Hw; subst w'; reflexivity.
Qed.

Lemma handle_logs_transaction (e : service) (x : xfer) (w w' : world) (r : Z) :
  xfer_of_service e = Some x -> handle e w = Some (r, w') ->
  bus_log w' = (bus_log w ++ [x])%list.
Proof.
  intros Hx Hh. destruct e; try discriminate Hx; simpl in Hx, Hh;
    injection Hx as <-; injection Hh as Hh; apply (f_equal snd) in Hh;
    simpl in Hh; subst w'; apply smbus_xfer_log.
Qed.

Lemma thread_step_accounts {A} (w w' : world) (t t' : thread A) :
  thread_step w t w' t' -> thread_uniform t ->
  thread_uniform t' /\
  steps_left t = S (steps_left t') /\
  exists l, bus_log w' = (bus_log w ++ l)%list /\
            pending t = (l ++ pending t')%list.
Proof.
  intros Hstep Hu.
  inversion Hstep as [w1 e k He | w1 e k r w1' Hh | w1 e k r w1' He Hh]; subst;
    simpl in Hu.
  - split; [split; [exact He | exact Hu] |]. split.
    + simpl. unfold service_steps at 1. rewrite He. reflexivity.
    + exists []. rewrite app_nil_r. auto.
  - destruct Hu as [He Hu]. destruct (Hu r) as [Hs Hur].
    split; [exact Hur |]. split; [simpl; rewrite Hs; reflexivity |].
    destruct (xfer_of_service e) as [x |] eqn:Hx;
      [| destruct e; discriminate].
    exists [x]. split; [eapply handle_logs_transaction; eauto |].
    simpl. rewrite Hx, Hs. reflexivity.
  - destruct (Hu r) as [Hs Hur].
    split; [exact Hur |]. split.
    + simpl. unfold service_steps at 1. rewrite He, Hs. reflexivity.
    + exists []. rewrite app_nil_r.
      split; [eapply handle_keeps_log; eauto |].
      simpl. rewrite Hs. destruct e; try discriminate He; reflexivity.
Qed.

Lemma sum_insert {A} (f : A -> nat) (pool : list A) (i : nat) (t t' : A) :
  pool !! i = Some t ->
  (sum_list_with f pool + f t' = sum_list_with f (<[i := t']> pool) + f t)%nat.
Proof.
  revert i. induction pool as [| a pool IH]; intros i Hi; [discriminate Hi |].
  destruct i as [| i]; simpl in *.
  - injection Hi as ->. lia.
  - specialize (IH i Hi). lia.
Qed.

Lemma concat_insert {A B} (g : A -> list B) (pool : list A) (i : nat)
      (t t' : A) (l : list B) :
  pool !! i = Some t -> g t = (l ++ g t')%list ->
  concat (g <$> pool) ≡ₚ l ++ concat (g <$> <[i := t']> pool).
Proof.
  revert i. induction pool as [| a pool IH]; intros i Hi Hg; [discriminate Hi |].
  destruct i as [| i]; simpl in *.
  - injection Hi as ->. rewrite Hg, <- app_assoc. reflexivity.
  - rewrite (IH i Hi Hg). rewrite !app_assoc.
    apply Permutation_app_tail, Permutation_app_comm.
Qed.

Lemma step_accounts {A} (w w' : world) (pool pool' : list (thread A)) :
  step (w, pool) (w', pool') -> Forall thread_uniform pool ->
  Forall thread_uniform pool' /\
  sum_list_with steps_left pool = S (sum_list_with steps_left pool') /\
  exists l, bus_log w' = (bus_log w ++ l)%list /\
            concat (pending <$> pool) ≡ₚ l ++ concat (pending <$> pool').
Proof.
  intros Hstep Hu.
  inversion Hstep as [i t t' w0 w0' pool0 Hi Ht]; subst.
  assert (Hut : thread_uniform t).
  { rewrite Forall_lookup in Hu. eapply Hu, Hi. }
  destruct (thread_step_accounts w w' t t' Ht Hut) as (Hut' & Hn & l & Hlog & Hp).
  split; [apply Forall_insert; assumption |]. split.
  - pose proof (sum_insert steps_left pool i t t' Hi). lia.
  - exists l. split; [exact Hlog |]. eapply concat_insert; eauto.
Qed.

Lemma nsteps_accounts {A} (n : nat) (s s' : world * list (thread A)) :
  nsteps step n s s' -> Forall thread_uniform s.2 ->
  (n + sum_list_with steps_left s'.2 = sum_list_with steps_left s.2)%nat /\
  exists l, bus_log s'.1 = (bus_log s.1 ++ l)%list /\
            concat (pending <$> s.2) ≡ₚ l ++ concat (pending <$> s'.2).
Proof.
  induction 1 as [s | n s1 s2 s3 Hstep _ IH]; intros Hu.
  - split; [reflexivity |]. exists []. rewrite app_nil_r. auto.
  - destruct s1 as [w1 p1], s2 as [w2 p2]. simpl in *.
    destruct (step_accounts w1 w2 p1 p2 Hstep Hu) as (Hu2 & Hn & l1 & Hlog1 & Hp1).
    destruct (IH Hu2) as (Hn' & l2 & Hlog2 & Hp2).
    split; [lia |]. exists (l1 ++ l2)%list. split.
    + rewrite Hlog2, Hlog1, app_assoc. reflexivity.
    + rewrite Hp1, Hp2, app_assoc. reflexivity.
Qed.

Lemma spawn_uniform (rss : list (list request)) :
  Forall thread_uniform (spawn rss).
Proof.
  unfold spawn. apply Forall_fmap, Forall_forall. intros rs _.
  apply uniform_serve_all.
Qed.

Lemma spawn_accounts (rss : list (list request)) :
  concat (pending <$> spawn rss) = omap transaction_of (concat rss) /\
  (sum_list_with steps_left (spawn rss) <= 4 * length (concat rss))%nat.
Proof.
  induction rss as [| rs rss [IHx IHn]]; [split; [reflexivity | simpl; lia] |].
  destruct (script_serve_all rs) as [Hx Hn].
  change (spawn (rs :: rss)) with (Running (serve_all rs) :: spawn rss).
  cbn [fmap list_fmap concat sum_list_with pending steps_left].
  split.
  - rewrite omap_app. f_equal; [exact Hx | exact IHx].
  - rewrite length_app. lia.
Qed.

Lemma finished_nothing_pending {A} (pool : list (thread A)) :
  forallb finished pool = true -> concat (pending <$> pool) = [].
Proof.
  induction pool as [| t pool IH]; simpl; [reflexivity |].
  intros H. apply andb_true_iff in H as [Ht Hrest].
  destruct t as [[a | e k] | e k]; try discriminate Ht.
  simpl. apply IH, Hrest.
Qed.

End Schedules.

Section ScheduleTheorems.
Import Concurrent Sessions.

Ltac take_service_step i :=
  eapply nsteps_l;
  [eapply (step_at i); [reflexivity |];
   eapply step_service; [reflexivity | reflexivity] |].

Ltac enter_transport i :=
  eapply nsteps_l;
  [eapply (step_at i); [reflexivity |]; eapply step_enter; reflexivity |].

Ltac leave_transport i :=
  eapply nsteps_l;
  [eapply (step_at i); [reflexivity |]; eapply step_leave; reflexivity |].

(** A store and a show side by side, run to the end: the store goes
    first, and the show cannot start until the store has unlocked. *)
Lemma two_callers_complete :
  exists w' pool',
    nsteps step 8 (bound_world no_fault, spawn [[StoreLed "42" 2]; [ShowSwitch]])
           (w', pool') /\
    forallb finished pool' = true /\
    bus_log w' = [WriteByte 0x14 42; ReadByte 0x13].
Proof.
  eexists _, _. split.
  - take_service_step 0%nat. enter_transport 0%nat.
    leave_transport 0%nat. take_service_step 0%nat.
    take_service_step 1%nat. enter_transport 1%nat.
    leave_transport 1%nat. take_service_step 1%nat.
    apply nsteps_O.
  - split; reflexivity.
Qed.

Lemma callers_never_deadlock_witness :
  is_Some (clientdata (bound_world no_fault)) /\
  lock_held (bound_world no_fault) = false /\
  exists w' pool',
    rtc step (bound_world no_fault, spawn [[StoreLed "42" 2]; [ShowSwitch]])
        (w', pool') /\
    ((exists s'', step (w', pool') s'') \/
     (forallb finished pool' = true /\ lock_held w' = false)).
Proof.
  split; [eexists; reflexivity |]. split; [reflexivity |].
  destruct two_callers_reach_a_transaction as (w' & pool' & Hreach & _).
  exists w', pool'. split; [exact Hreach |].
  apply (callers_never_deadlock (bound_world no_fault) w'
           [[StoreLed "42" 2]; [ShowSwitch]] pool');
    [eexists; reflexivity | reflexivity | exact Hreach].
Defined.

(** X9. No schedule runs on: from the start, callers serving their
    requests take at most four steps per request in total (take the
    mutex, enter the transport call, leave it, release the mutex), however
    they interleave and whatever the transport answers. *)
Theorem schedules_are_bounded
  (n : nat) (w w' : world) (rss : list (list request))
  (pool' : list (thread unit)) :
  nsteps step n (w, spawn rss) (w', pool') ->
  (n <= 4 * length (concat rss))%nat.
Proof.
  intros Hrun.
  destruct (nsteps_accounts n _ _ Hrun (spawn_uniform rss)) as [Hn _].
  destruct (spawn_accounts rss) as [_ Hbound]. simpl in Hn. lia.
Qed.

Lemma schedules_are_bounded_witness :
  exists w' pool',
    nsteps step 8 (bound_world no_fault, spawn [[StoreLed "42" 2]; [ShowSwitch]])
           (w', pool') /\
    (8 <= 4 * length (concat [[StoreLed "42" 2]; [ShowSwitch]]))%nat.
Proof.
  destruct two_callers_complete as (w' & pool' & Hrun & _).
  exists w', pool'. split; [exact Hrun |].
  exact (schedules_are_bounded 8 (bound_world no_fault) w'
           [[StoreLed "42" 2]; [ShowSwitch]] pool' Hrun).
Defined.

(** X10. Under any interleaving, the transactions logged since the
    start, together with those the callers have yet to complete, are
    exactly the transactions of the requests, each once; so when every
    caller has returned, the log has grown by the requests' transactions,
    one each, none lost, none repeated, none invented. *)
Theorem concurrent_requests_logged_once_each
  (w w' : world) (rss : list (list request)) (pool' : list (thread unit)) :
  rtc step (w, spawn rss) (w', pool') ->
  exists l,
    bus_log w' = (bus_log w ++ l)%list /\
    l ++ concat (pending <$> pool') ≡ₚ omap transaction_of (concat rss) /\
    (forallb finished pool' = true -> l ≡ₚ omap transaction_of (concat rss)).
Proof.
  intros Hreach. apply rtc_nsteps_1 in Hreach as [n Hrun].
  destruct (nsteps_accounts n _ _ Hrun (spawn_uniform rss))
    as (_ & l & Hlog & Hperm).
  destruct (spawn_accounts rss) as [Hall _]. simpl in Hlog, Hperm.
  rewrite Hall in Hperm.
  exists l. split; [exact Hlog |]. split; [symmetry; exact Hperm |].
  intros Hdone. rewrite (finished_nothing_pending pool' Hdone), app_nil_r in Hperm.
  symmetry. exact Hperm.
Qed.

Lemma concurrent_requests_logged_once_each_witness :
  exists w' pool',
    rtc step (bound_world no_fault, spawn [[StoreLed "42" 2]; [ShowSwitch]])
        (w', pool') /\
    forallb finished pool' = true /\
    exists l,
      bus_log w' = ([] ++ l)%list /\
      l ++ concat (pending <$> pool') ≡ₚ [WriteByte 0x14 42; ReadByte 0x13] /\
      l ≡ₚ [WriteByte 0x14 42; ReadByte 0x13].
Proof.
  destruct two_callers_complete as (w' & pool' & Hrun & Hdone & _).
  apply rtc_nsteps_2 in Hrun.
  exists w', pool'. split; [exact Hrun |]. split; [exact Hdone |].
  destruct (concurrent_requests_logged_once_each (bound_world no_fault) w'
              [[StoreLed "42" 2]; [ShowSwitch]] pool' Hrun)
    as (l & Hlog & Hperm & Hfinal).
  exists l. split; [exact Hlog |]. split; [exact Hperm |].
  exact (Hfinal Hdone).
Defined.

End ScheduleTheorems.

Section RegisterAccess.
Import Sessions.

(** X11. The two register functions on an idle bound client: each
    returns after exactly one transaction, with register address and
    value narrowed to 8 bits, and with the mutex free again and the
    client data and attribute files as they were, whether the transaction
    succeeded or not.  Each returns what the transport returned: for a
    write 0 or the negative errno, for a read a byte or the negative
    errno. *)
Theorem register_access_outcomes (w : world) (reg value : Z) :
  idle w ->
  (exists r w1,
     run (chip_write_value reg value) w = Some (r, w1) /\
     idle w1 /\ clientdata w1 = clientdata w /\ sysfs w1 = sysfs w /\
     bus_log w1 = (bus_log w ++ [WriteByte (reg mod 2 ^ 8) (value mod 2 ^ 8)])%list /\
     match bus_fault w (length (bus_log w)) with
     | None => r = 0
     | Some e => r = Z.neg e
     end) /\
  (exists r w1,
     run (chip_read_value reg) w = Some (r, w1) /\
     idle w1 /\ clientdata w1 = clientdata w /\ sysfs w1 = sysfs w /\
     bus_log w1 = (bus_log w ++ [ReadByte (reg mod 2 ^ 8)])%list /\
     match bus_fault w (length (bus_log w)) with
     | None => 0 <= r < 256
     | Some e => r = Z.neg e
     end).
Proof.
  intros Hidle. pose proof Hidle as (d & Hd & Hfree).
  rewrite <- !u8_mod. split.
  - set (x := WriteByte (u8 reg) (u8 value)).
    exists (smbus_xfer x w).1, (smbus_xfer x w).2.
    split; [rewrite (run_chip_write_value reg value w d Hd Hfree);
            rewrite <- surjective_pairing; reflexivity |].
    split; [apply smbus_xfer_idle, Hidle |].
    split; [apply smbus_xfer_clientdata |].
    split; [apply smbus_xfer_sysfs |].
    split; [apply smbus_xfer_log |].
    exact (smbus_write_result (u8 reg) (u8 value) w).
  - set (x := ReadByte (u8 reg)).
    exists (smbus_xfer x w).1, (smbus_xfer x w).2.
    split; [rewrite (run_chip_read_value reg w d Hd Hfree);
            rewrite <- surjective_pairing; reflexivity |].
    split; [apply smbus_xfer_idle, Hidle |].
    split; [apply smbus_xfer_clientdata |].
    split; [apply smbus_xfer_sysfs |].
    split; [apply smbus_xfer_log |].
    pose proof (smbus_read_result (u8 reg) w) as Hr. cbv zeta in Hr.
    fold x in Hr.
    destruct (bus_fault w (length (bus_log w))); [exact Hr |].
    rewrite Hr. apply u8_range.
Qed.

Lemma register_access_outcomes_witness :
  idle (bound_world (fault_at 0)) /\
  (exists r w1,
     run (chip_write_value 0x14 0x1FF) (bound_world (fault_at 0)) = Some (r, w1) /\
     idle w1 /\ clientdata w1 = Some zeroed_chip_data /\
     sysfs w1 = [dev_attr_chip_switch; dev_attr_chip_led] /\
     bus_log w1 = [WriteByte 0x14 0xFF] /\
     r = -5) /\
  (exists r w1,
     run (chip_read_value 0x14) (bound_world (fault_at 0)) = Some (r, w1) /\
     idle w1 /\ clientdata w1 = Some zeroed_chip_data /\
     sysfs w1 = [dev_attr_chip_switch; dev_attr_chip_led] /\
     bus_log w1 = [ReadByte 0x14] /\
     r = -5).
Proof.
  assert (Hidle : idle (bound_world (fault_at 0)))
    by (exists zeroed_chip_data; split; reflexivity).
  split; [exact Hidle |].
  exact (register_access_outcomes (bound_world (fault_at 0)) 0x14 0x1FF Hidle).
Defined.

(** X12. A register write sees only the low byte of the 16-bit value it
    is given: on any machine, writing a value and writing that value
    modulo 2^8 (0x1FF and 0xFF, say) are the same run, with the same
    transaction, result and state. *)
Theorem register_write_sees_low_byte (w : world) (reg value : Z) :
  run (chip_write_value reg value) w
  = run (chip_write_value reg (value mod 2 ^ 8)) w.
Proof.
  unfold chip_write_value. rewrite !run_call.
  destruct (handle mutex_lock w) as [[r0 w0] |]; [| reflexivity].
  rewrite !run_call. cbn [handle].
  rewrite !u8_u16, <- (u8_mod value), !u8_idem. reflexivity.
Qed.

End RegisterAccess.

Section Detection.

Lemma byte_data_mask_bits (n : Z) :
  0 <= n ->
  Z.testbit I2C_FUNC_SMBUS_BYTE_DATA n = (n =? 19) || (n =? 20).
Proof.
  intros Hn. unfold I2C_FUNC_SMBUS_BYTE_DATA.
  change I2C_FUNC_SMBUS_READ_BYTE_DATA with (2 ^ 19).
  change I2C_FUNC_SMBUS_WRITE_BYTE_DATA with (2 ^ 20).
  rewrite Z.lor_spec, !Z.pow2_bits_eqb by lia.
  rewrite (Z.eqb_sym 19), (Z.eqb_sym 20). reflexivity.
Qed.

Lemma check_functionality_bits (functionality : Z) :
  i2c_check_functionality functionality I2C_FUNC_SMBUS_BYTE_DATA = true <->
  Z.testbit functionality 19 = true /\ Z.testbit functionality 20 = true.
Proof.
  unfold i2c_check_functionality. rewrite Z.eqb_eq. split.
  - intros Hland. split.
    + apply (f_equal (fun x => Z.testbit x 19)) in Hland.
      rewrite Z.land_spec, byte_data_mask_bits in Hland by lia. exact Hland.
    + apply (f_equal (fun x => Z.testbit x 20)) in Hland.
      rewrite Z.land_spec, byte_data_mask_bits in Hland by lia. exact Hland.
  - intros [H19 H20]. apply Z.bits_inj'. intros n Hn.
    rewrite Z.land_spec, byte_data_mask_bits by exact Hn.
    destruct (Z.eqb_spec n 19) as [-> | _]; [rewrite H19; reflexivity |].
    destruct (Z.eqb_spec n 20) as [-> | _]; [rewrite H20; reflexivity |].
    reflexivity.
Qed.

(** X14. Detection looks at two capability bits and the address and at
    nothing else: it answers 0 exactly when the adapter's functionality
    has both bit 19 (SMBus read byte data) and bit 20 (SMBus write byte
    data) set and the address is 0x21; every other answer is -ENODEV
    with [info->type] untouched. *)
Theorem detect_decided_by_two_bits_and_address
  (functionality addr : Z) (info_type : string) :
  (Z.testbit functionality 19 = true /\ Z.testbit functionality 20 = true /\
   addr = 0x21 ->
   chip_i2c_detect functionality addr info_type = (0, "chip_i2c"%string)) /\
  (~ (Z.testbit functionality 19 = true /\ Z.testbit functionality 20 = true /\
      addr = 0x21) ->
   chip_i2c_detect functionality addr info_type = (-19, info_type)).
Proof.
  pose proof (check_functionality_bits functionality) as Hbits.
  unfold chip_i2c_detect.
  destruct (i2c_check_functionality functionality I2C_FUNC_SMBUS_BYTE_DATA);
    simpl; split.
  - intros (_ & _ & ->). reflexivity.
  - intros Hnot. destruct (Z.eqb_spec addr 33) as [-> | _]; [| reflexivity].
    exfalso. apply Hnot. destruct (proj1 Hbits eq_refl). auto.
  - intros (H19 & H20 & _).
    assert (Hc : false = true) by (apply Hbits; auto). discriminate Hc.
  - reflexivity.
Qed.

Lemma detect_decided_by_two_bits_and_address_witness :
  chip_i2c_detect 0x0EFF0009 0x21 "" = (0, "chip_i2c"%string) /\
  chip_i2c_detect 0x0EEF0009 0x21 "" = (-19, ""%string) /\
  chip_i2c_detect 0x0EFF0009 0x20 "" = (-19, ""%string).
Proof.
  split; [| split].
  - apply (proj1 (detect_decided_by_two_bits_and_address 0x0EFF0009 0x21 "")).
    repeat split; reflexivity.
  - apply (proj2 (detect_decided_by_two_bits_and_address 0x0EEF0009 0x21 "")).
    intros (_ & H20 & _). vm_compute in H20. discriminate H20.
  - apply (proj2 (detect_decided_by_two_bits_and_address 0x0EFF0009 0x20 "")).
    intros (_ & _ & Ha). discriminate Ha.
Defined.

End Detection.
